(** * BattleShips: the targeting engine of [AutomaticPlayer] (player.py)

    A shallow embedding of [AutomaticPlayer] and the properties of its two
    entry points, [select_target] and [receive_result], followed by
    [RandomPlayer] and the naming of players in [Player.__init__].

    Python values are embedded as follows.
    - ints are [Z] (Python ints do not wrap);
    - the values a "cell" variable can hold at run time are [None], [False]
      and a pair [(x, y)]: the type [pyval];
    - [self.tracker] holds whatever [select_target] returned, so it is a
      finite set of [pyval]; [self.dont_choose] only ever receives pairs;
    - [self.current_ship_info] is a record with one field per dictionary key;
    - a [TypeError] (subscripting or unpacking [None] / [False]) ends the
      call: the error monad [outcome];
    - [random.randint] is replaced by the list of pairs it hands out during
      one call; a list that is used up before the sampling loop stops is the
      outcome [Spins]. *)

From stdpp Require Import gmap list strings pretty.
From Stdlib Require Import ZArith Lia.

#[local] Open Scope Z_scope.

(** ** Values *)

Inductive pyval : Type :=
| PNone
| PFalse
| PCell (x y : Z).

#[global] Instance pyval_eq_dec : EqDecision pyval.
Proof. solve_decision. Defined.

Definition pyval_code (v : pyval) : unit + (unit + Z * Z) :=
  match v with
  | PNone => inl tt
  | PFalse => inr (inl tt)
  | PCell x y => inr (inr (x, y))
  end.

Definition pyval_decode (c : unit + (unit + Z * Z)) : pyval :=
  match c with
  | inl _ => PNone
  | inr (inl _) => PFalse
  | inr (inr (x, y)) => PCell x y
  end.

#[global] Instance pyval_countable : Countable pyval.
Proof.
  apply (inj_countable' pyval_code pyval_decode).
  intros []; reflexivity.
Defined.

(** Truthiness: [None] and [False] are falsy, a pair is a non-empty tuple. *)
Definition truthy (v : pyval) : bool :=
  match v with
  | PCell _ _ => true
  | _ => false
  end.

(** The value of [current_ship_info['direction']]: [None], ['h'] or ['v']. *)
Inductive orientation : Type :=
| DNone
| DH
| DV.

#[global] Instance orientation_eq_dec : EqDecision orientation.
Proof. solve_decision. Defined.

(** ** Exceptions *)

Inductive exn : Type :=
| TypeError.

Inductive outcome (A : Type) : Type :=
| Returns (a : A)
| Raises (e : exn)
| Spins.

Arguments Returns {A} a.
Arguments Raises {A} e.
Arguments Spins {A}.

#[global] Instance outcome_ret : MRet outcome := fun A a => Returns a.

#[global] Instance outcome_bind : MBind outcome := fun A B f m =>
  match m with
  | Returns a => f a
  | Raises e => Raises e
  | Spins => Spins
  end.

(** [v[0]], [v[1]] and [x, y = v]. *)
Definition item0 (v : pyval) : outcome Z :=
  match v with
  | PCell x _ => Returns x
  | _ => Raises TypeError
  end.

Definition item1 (v : pyval) : outcome Z :=
  match v with
  | PCell _ y => Returns y
  | _ => Raises TypeError
  end.

Definition unpack (v : pyval) : outcome (Z * Z) :=
  match v with
  | PCell x y => Returns (x, y)
  | _ => Raises TypeError
  end.

(** ** State *)

Record ship_info : Type := ShipInfo {
  active : bool;
  start : pyval;
  end_ : pyval;
  direction : orientation;
  ship_length : option Z;
  hits : list pyval;
  start_found : bool;
  end_found : bool
}.

Record player : Type := Player {
  board_width : Z;
  board_height : Z;
  tracker : gset pyval;
  dont_choose : gset (Z * Z);
  last_hit : pyval;
  current_ship_info : ship_info
}.

Definition set_start (v : pyval) (i : ship_info) : ship_info :=
  ShipInfo (active i) v (end_ i) (direction i) (ship_length i) (hits i)
           (start_found i) (end_found i).

Definition set_end (v : pyval) (i : ship_info) : ship_info :=
  ShipInfo (active i) (start i) v (direction i) (ship_length i) (hits i)
           (start_found i) (end_found i).

Definition set_direction (d : orientation) (i : ship_info) : ship_info :=
  ShipInfo (active i) (start i) (end_ i) d (ship_length i) (hits i)
           (start_found i) (end_found i).

Definition set_active (b : bool) (i : ship_info) : ship_info :=
  ShipInfo b (start i) (end_ i) (direction i) (ship_length i) (hits i)
           (start_found i) (end_found i).

Definition set_hits (l : list pyval) (i : ship_info) : ship_info :=
  ShipInfo (active i) (start i) (end_ i) (direction i) (ship_length i) l
           (start_found i) (end_found i).

Definition set_start_found (b : bool) (i : ship_info) : ship_info :=
  ShipInfo (active i) (start i) (end_ i) (direction i) (ship_length i) (hits i)
           b (end_found i).

Definition set_end_found (b : bool) (i : ship_info) : ship_info :=
  ShipInfo (active i) (start i) (end_ i) (direction i) (ship_length i) (hits i)
           (start_found i) b.

Definition set_info (i : ship_info) (p : player) : player :=
  Player (board_width p) (board_height p) (tracker p) (dont_choose p)
         (last_hit p) i.

Definition set_tracker (t : gset pyval) (p : player) : player :=
  Player (board_width p) (board_height p) t (dont_choose p)
         (last_hit p) (current_ship_info p).

Definition set_dont_choose (d : gset (Z * Z)) (p : player) : player :=
  Player (board_width p) (board_height p) (tracker p) d
         (last_hit p) (current_ship_info p).

Definition set_last_hit (v : pyval) (p : player) : player :=
  Player (board_width p) (board_height p) (tracker p) (dont_choose p)
         v (current_ship_info p).

(** The dictionary built by [__init__] (it has a ['length'] key). *)
Definition initial_ship_info : ship_info :=
  ShipInfo false PNone PNone DNone (Some 0) [] false false.

(** The dictionary built by [reset_current_ship] (no ['length'] key). *)
Definition fresh_ship_info : ship_info :=
  ShipInfo false PNone PNone DNone None [] false false.

(** [AutomaticPlayer()] on a board of the given size. *)
Definition new_player (w h : Z) : player :=
  Player w h ∅ ∅ PNone initial_ship_info.

(** ** Methods of [AutomaticPlayer] *)

Definition initialise_ship (cell : pyval) (p : player) : player :=
  let i := current_ship_info p in
  let i := set_active true i in
  let i := set_start cell i in
  let i := set_end cell i in
  set_info (set_hits (hits i ++ [cell]) i) p.

(** The last [if]/[else] of [update_current_ship]: the branch for ['v']
    compares [cell[1]], every other direction compares [cell[0]]. *)
Definition extend_boundaries (d : orientation) (cell : pyval) (i : ship_info)
  : outcome ship_info :=
  match d with
  | DV =>
      c ← item1 cell; s ← item1 (start i);
      mret (if c <? s then set_start cell i else set_end cell i)
  | _ =>
      c ← item0 cell; s ← item0 (start i);
      mret (if c <? s then set_start cell i else set_end cell i)
  end.

Definition update_current_ship (cell : pyval) (p : player) : outcome player :=
  let i := current_ship_info p in
  let d := direction i in
  let i := set_hits (hits i ++ [cell]) i in
  '(d, i) ←
    match d with
    | DNone =>
        '(d, i) ←
          (if (Z.of_nat (length (hits i)) =? 1) then
             mret (d, set_end cell (set_start cell i))
           else
             c0 ← item0 cell; s0 ← item0 (start i);
             if c0 =? s0 then mret (DV, i)
             else
               c1 ← item1 cell; s1 ← item1 (start i);
               if c1 =? s1 then mret (DH, i) else mret (d, i));
        mret (d, set_direction d i)
    | _ => mret (d, i)
    end;
  i ← extend_boundaries d cell i;
  mret (set_info i p).

(** [range(a, b)]. *)
Definition range (a b : Z) : list Z := seqZ a (b - a).

Definition dont_hit_nearby_cells (p : player) : outcome player :=
  let i := current_ship_info p in
  x1 ← item0 (start i);
  x2 ← item0 (end_ i);
  y1 ← item1 (start i);
  y2 ← item1 (end_ i);
  mret (set_dont_choose
          (foldl (fun acc x =>
                    foldl (fun acc y => {[ (x, y) ]} ∪ acc) acc
                          (range (y1 - 1) (y2 + 2)))
                 (dont_choose p) (range (x1 - 1) (x2 + 2)))
          p).

Definition reset_current_ship (p : player) : player :=
  set_info fresh_ship_info p.

Definition found_end (cell : pyval) (p : player) : outcome player :=
  let i := current_ship_info p in
  match direction i with
  | DV =>
      c ← item1 cell; s ← item1 (start i);
      if c <? s then mret (set_info (set_start_found true i) p)
      else
        c ← item1 cell; e ← item1 (end_ i);
        if c >? e then mret (set_info (set_end_found true i) p) else mret p
  | DH =>
      c ← item0 cell; s ← item0 (start i);
      if c <? s then mret (set_info (set_start_found true i) p)
      else
        c ← item0 cell; e ← item0 (end_ i);
        if c >? e then mret (set_info (set_end_found true i) p) else mret p
  | DNone => mret p
  end.

(** [(x, y) in self.tracker or (x, y) in self.dont_choose]. *)
Definition forbidden (p : player) (c : Z * Z) : bool :=
  bool_decide (PCell c.1 c.2 ∈ tracker p) || bool_decide (c ∈ dont_choose p).

(** [choose_randomly]: every element of [draws] is one pair of calls to
    [random.randint]; the loop takes the first pair that is not forbidden. *)
Fixpoint choose_randomly (p : player) (draws : list (Z * Z)) : outcome (Z * Z) :=
  match draws with
  | [] => Spins
  | c :: rest => if forbidden p c then choose_randomly p rest else mret c
  end.

Definition in_bounds (p : player) (c : Z * Z) : bool :=
  (1 <=? c.1) && (c.1 <=? board_width p) &&
  ((1 <=? c.2) && (c.2 <=? board_height p)).

(** The test shared by the four [check_*] methods and, negated, by
    [choose_around_cell]. *)
Definition legal (p : player) (c : Z * Z) : bool :=
  in_bounds p c && negb (forbidden p c).

Definition check (p : player) (c : Z * Z) : pyval :=
  if negb (in_bounds p c) || forbidden p c then PFalse else PCell c.1 c.2.

Definition check_above (p : player) : outcome pyval :=
  '(x, y) ← unpack (start (current_ship_info p));
  mret (check p (x, y - 1)).

Definition check_below (p : player) : outcome pyval :=
  '(x, y) ← unpack (end_ (current_ship_info p));
  mret (check p (x, y + 1)).

Definition check_left (p : player) : outcome pyval :=
  '(x, y) ← unpack (start (current_ship_info p));
  mret (check p (x - 1, y)).

Definition check_right (p : player) : outcome pyval :=
  '(x, y) ← unpack (end_ (current_ship_info p));
  mret (check p (x + 1, y)).

Definition offsets : list (Z * Z) := [(-1, 0); (0, -1); (1, 0); (0, 1)].

(** The [for] loop of [choose_around_cell]; falling off its end returns
    [None]. *)
Fixpoint first_legal (p : player) (x y : Z) (ds : list (Z * Z)) : pyval :=
  match ds with
  | [] => PNone
  | (dx, dy) :: rest =>
      if legal p (x + dx, y + dy) then PCell (x + dx) (y + dy)
      else first_legal p x y rest
  end.

Definition choose_around_cell (p : player) : outcome pyval :=
  '(x, y) ← unpack (start (current_ship_info p));
  mret (first_legal p x y offsets).

(** [select_target].  The statement
    [self.current_ship_info['start_found'] == True] is an expression
    statement: its value, bound to [_] below, is dropped. *)
Definition select_target (draws : list (Z * Z)) (p : player)
  : outcome (pyval * player) :=
  let i := current_ship_info p in
  cell ←
    (if negb (active i) then
       c ← choose_randomly p draws; mret (PCell c.1 c.2)
     else
       match direction i with
       | DNone => choose_around_cell p
       | DH =>
           if Bool.eqb (start_found i) false then
             cell ← check_left p;
             if negb (truthy cell) then
               let _ := Bool.eqb (start_found i) true in
               check_right p
             else mret cell
           else check_right p
       | DV =>
           if Bool.eqb (start_found i) false then
             cell ← check_above p;
             if negb (truthy cell) then
               let _ := Bool.eqb (start_found i) true in
               check_below p
             else mret cell
           else check_below p
       end);
  mret (cell, set_last_hit cell (set_tracker ({[ cell ]} ∪ tracker p) p)).

Definition receive_result (is_ship_hit has_ship_sunk : bool) (p : player)
  : outcome player :=
  if has_ship_sunk then
    p ← update_current_ship (last_hit p) p;
    p ← dont_hit_nearby_cells p;
    mret (reset_current_ship p)
  else if is_ship_hit then
    if negb (active (current_ship_info p)) then
      mret (initialise_ship (last_hit p) p)
    else update_current_ship (last_hit p) p
  else
    if active (current_ship_info p) then
      match direction (current_ship_info p) with
      | DNone => mret (set_tracker ({[ last_hit p ]} ∪ tracker p) p)
      | _ => found_end (last_hit p) p
      end
    else mret (set_tracker ({[ last_hit p ]} ∪ tracker p) p).

(** ** Runs *)

(** [random.randint(1, width)] and [random.randint(1, height)] return
    values inside the board. *)
Definition randint_ok (p : player) (draws : list (Z * Z)) : Prop :=
  Forall (fun c => in_bounds p c = true) draws.

(** The harness alternates the two calls: after [select_target] the player
    is [Awaiting] the result, after [receive_result] it is [Ready]. *)
Inductive phase : Type :=
| Ready
| Awaiting.

Inductive reachable (w h : Z) : phase -> player -> Prop :=
| reach_new :
    reachable w h Ready (new_player w h)
| reach_select p draws v p' :
    reachable w h Ready p ->
    randint_ok p draws ->
    select_target draws p = Returns (v, p') ->
    reachable w h Awaiting p'
| reach_receive p is_ship_hit has_ship_sunk p' :
    reachable w h Awaiting p ->
    receive_result is_ship_hit has_ship_sunk p = Returns p' ->
    reachable w h Ready p'.

(** [select_target] returns [v]. *)
Definition selects (draws : list (Z * Z)) (p : player) (v : pyval) : Prop :=
  exists p', select_target draws p = Returns (v, p').

(** ** States and runs used below *)

(** Left, up, right, down of [(x, y)]. *)
Definition neighbours (x y : Z) : list (Z * Z) :=
  [(x - 1, y); (x, y - 1); (x + 1, y); (x, y + 1)].

(** A player on a 10 x 10 board with the given pursuit, attempted cells
    and last target. *)
Definition player_with (i : ship_info) (t : list pyval) (l : pyval) : player :=
  Player 10 10 (list_to_set t) ∅ l i.

(** First hit at (1, 4); the cell above it, (1, 3), was a miss. *)
Definition seeking_example : player :=
  player_with (ShipInfo true (PCell 1 4) (PCell 1 4) DNone None [PCell 1 4]
                 false false)
              [PCell 1 4; PCell 1 3] (PCell 1 4).

(** The value [select_target] returns while extending a pursuit from
    [(sx, sy)] to [(ex, ey)]: [near] is the cell before [start], [far] the
    cell after [end]. *)
Definition extension_probe (p : player) (near far : Z * Z) : pyval :=
  if Bool.eqb (start_found (current_ship_info p)) false then
    if negb (truthy (check p near)) then check p far else check p near
  else check p far.

(** A player whose pursuit runs horizontally from (2, 5) to (2, 5) with the
    given attempted cells. *)
Definition extending_example (t : list pyval) : player :=
  player_with (ShipInfo true (PCell 2 5) (PCell 2 5) DH None [PCell 2 5]
                 false false)
              t (PCell 2 5).

(** The coordinate of a cell along the axis of a pursuit: [x] for a
    horizontal one, [y] for a vertical one. *)
Definition along (d : orientation) (v : pyval) : option Z :=
  match d, v with
  | DH, PCell x _ => Some x
  | DV, PCell _ y => Some y
  | _, _ => None
  end.

(** First hit at (4, 4), second hit at (4, 6). *)
Definition first_hit_44 : outcome player :=
  receive_result true false (set_last_hit (PCell 4 4) (new_player 10 10)).

Definition second_hit_46 : outcome player :=
  p ← first_hit_44; mret (set_last_hit (PCell 4 6) p).

Definition after_second_target : player :=
  match second_hit_46 with
  | Returns p => p
  | _ => new_player 10 10
  end.

(** The pursuit record with its two flags replaced. *)
Definition with_found (sf ef : bool) (i : ship_info) : ship_info :=
  ShipInfo (active i) (start i) (end_ i) (direction i) (ship_length i)
           (hits i) sf ef.

(** A horizontal pursuit from (4, 5) to (5, 5) whose last probe was
    (3, 5). *)
Definition missed_left_example : player :=
  player_with (ShipInfo true (PCell 4 5) (PCell 5 5) DH None
                 [PCell 5 5; PCell 4 5] false false)
              [PCell 5 5; PCell 4 5; PCell 3 5] (PCell 3 5).

(** A vertical pursuit from (3, 3) to (3, 4) whose last target, (3, 5),
    sinks the ship: once the target is folded in, the pursuit runs from
    (3, 3) to (3, 5). *)
Definition sunk_example : player :=
  player_with (ShipInfo true (PCell 3 3) (PCell 3 4) DV None
                 [PCell 3 3; PCell 3 4] false false)
              [PCell 3 3; PCell 3 4; PCell 3 5] (PCell 3 5).

(** The invariant of the specification: [start = end] while the direction
    is unknown, [start] not after [end] along the axis once it is known. *)
Definition pursuit_ok (i : ship_info) : Prop :=
  active i = true ->
  match direction i with
  | DNone => start i = end_ i
  | d => exists a b,
           along d (start i) = Some a /\ along d (end_ i) = Some b /\ a ≤ b
  end.

(** With no pursuit active the record is the one [__init__] or
    [reset_current_ship] built. *)
Definition idle_ok (i : ship_info) : Prop :=
  active i = false -> direction i = DNone /\ hits i = [].

(** What [last_hit] can be when [select_target] has just returned. *)
Definition probe_ok (p : player) : Prop :=
  let i := current_ship_info p in
  if active i then
    match direction i with
    | DNone =>
        last_hit p = PNone \/
        exists x y dx dy,
          start i = PCell x y /\ (dx, dy) ∈ offsets /\
          last_hit p = PCell (x + dx) (y + dy)
    | DH =>
        last_hit p = PFalse \/
        (exists x y, start i = PCell x y /\ last_hit p = PCell (x - 1) y) \/
        (exists x y, end_ i = PCell x y /\ last_hit p = PCell (x + 1) y)
    | DV =>
        last_hit p = PFalse \/
        (exists x y, start i = PCell x y /\ last_hit p = PCell x (y - 1)) \/
        (exists x y, end_ i = PCell x y /\ last_hit p = PCell x (y + 1))
    end
  else exists x y, last_hit p = PCell x y.

(** One turn: the draws handed to [select_target], then the result the
    harness reports, [(is_ship_hit, has_ship_sunk)]. *)
Definition turn : Type := list (Z * Z) * (bool * bool).

Definition miss : bool * bool := (false, false).
Definition hit : bool * bool := (true, false).
Definition sunk : bool * bool := (true, true).

Fixpoint play (ts : list turn) (p : player) : outcome player :=
  match ts with
  | [] => mret p
  | (draws, (is_ship_hit, has_ship_sunk)) :: rest =>
      '(_, p) ← select_target draws p;
      p ← receive_result is_ship_hit has_ship_sunk p;
      play rest p
  end.

(** The player after the given turns on a 10 x 10 board. *)
Definition after (ts : list turn) : player :=
  match play ts (new_player 10 10) with
  | Returns p => p
  | _ => new_player 10 10
  end.

(** The player after the given turns and one more [select_target]. *)
Definition awaiting_after (ts : list turn) (draws : list (Z * Z)) : player :=
  match select_target draws (after ts) with
  | Returns (_, p) => p
  | _ => new_player 10 10
  end.

(** A hit at (4, 4), then a hit at its left neighbour (3, 4). *)
Definition two_hits : list turn := [([(4, 4)], hit); ([], hit)].

(** A hit at (2, 5), then a hit at its left neighbour (1, 5): the pursuit
    is horizontal and starts on the left edge of the board. *)
Definition at_left_edge : list turn := [([(2, 5)], hit); ([], hit)].

(** Misses at (2, 1) and (1, 2), then a hit at the corner (1, 1): no
    neighbour of the hit is left to probe. *)
Definition cornered : list turn :=
  [([(2, 1)], miss); ([(1, 2)], miss); ([(1, 1)], hit)].

(** A hit at (1, 1), a hit at (2, 1), a miss at (3, 1): the pursuit is
    horizontal, the cell left of [start] is off the board and the cell
    right of [end] has been attempted. *)
Definition walled_in : list turn :=
  [([(1, 1)], hit); ([], hit); ([], miss)].

(** ** Logged runs and the shape of a pursuit *)

(** [play], keeping the value each [select_target] returned. *)
Fixpoint play_log (ts : list turn) (p : player)
  : outcome (list pyval * player) :=
  match ts with
  | [] => mret ([], p)
  | (draws, (is_ship_hit, has_ship_sunk)) :: rest =>
      '(v, p) ← select_target draws p;
      p ← receive_result is_ship_hit has_ship_sunk p;
      '(vs, p) ← play_log rest p;
      mret (v :: vs, p)
  end.

(** The pairs among the returned values. *)
Definition cells_of (vs : list pyval) : list (Z * Z) :=
  omap (fun v => match v with PCell x y => Some (x, y) | _ => None end) vs.

(** [v] is one of the cells from [s] to [e] along the axis [d] (the axis of
    [x] while the direction is unknown, where [s = e]). *)
Definition on_segment (d : orientation) (s e : Z * Z) (v : pyval) : Prop :=
  match d with
  | DV => exists k, s.2 ≤ k ≤ e.2 /\ v = PCell s.1 k
  | _ => exists k, s.1 ≤ k ≤ e.1 /\ v = PCell k s.2
  end.

(** An active pursuit is a straight run of cells from [start] to [end], and
    [hits] holds exactly these cells, each once; a single cell while the
    direction is unknown, at least two once it is known. *)
Definition segment_ok (i : ship_info) : Prop :=
  active i = true ->
  exists sx sy ex ey,
    start i = PCell sx sy /\ end_ i = PCell ex ey /\
    NoDup (hits i) /\
    (forall v, v ∈ hits i ↔ on_segment (direction i) (sx, sy) (ex, ey) v) /\
    match direction i with
    | DNone => (ex, ey) = (sx, sy)
    | DH => ey = sy /\ sx < ex
    | DV => ex = sx /\ sy < ey
    end.

(** Hits at (4, 4), (3, 4), (2, 4), a miss at (1, 4), a hit at (5, 4). *)
Definition five_turns : list turn :=
  [([(4, 4)], hit); ([], hit); ([], hit); ([], miss); ([], hit)].

(** A player on a board of one cell that has attacked its cell. *)
Definition exhausted_example : player :=
  Player 1 1 {[ PCell 1 1 ]} ∅ (PCell 1 1) initial_ship_info.

(** ** [RandomPlayer] *)

Module RandomPlayer.

(** The fields a [RandomPlayer] uses: the size of its board and the set of
    cells it has attacked. *)
Record t : Type := Make {
  board_width : Z;
  board_height : Z;
  tracker : gset (Z * Z)
}.

(** [RandomPlayer()] on a board of the given size. *)
Definition new (w h : Z) : t := Make w h ∅.

(** The range of [get_random_coordinates]. *)
Definition in_board (p : t) (c : Z * Z) : bool :=
  (1 <=? c.1) && (c.1 <=? board_width p) && ((1 <=? c.2) && (c.2 <=? board_height p)).

(** [generate_random_target]: every element of [draws] is one call of
    [get_random_coordinates]; the loop runs while the drawn cell is in
    [self.tracker]. *)
Fixpoint generate_random_target (p : t) (draws : list (Z * Z))
  : outcome (Z * Z) :=
  match draws with
  | [] => Spins
  | c :: rest =>
      if bool_decide (c ∈ tracker p) then generate_random_target p rest
      else mret c
  end.

Definition select_target (draws : list (Z * Z)) (p : t) : outcome (Z * Z * t) :=
  target_cell ← generate_random_target p draws;
  mret (target_cell, Make (board_width p) (board_height p) ({[ target_cell ]} ∪ tracker p)).

(** Successive calls of [select_target], one list of draws for each. *)
Fixpoint targets (dss : list (list (Z * Z))) (p : t)
  : outcome (list (Z * Z) * t) :=
  match dss with
  | [] => mret ([], p)
  | draws :: rest =>
      '(c, p) ← select_target draws p;
      '(cs, p) ← targets rest p;
      mret (c :: cs, p)
  end.

End RandomPlayer.

(** ** [Player] *)

Module PlayerBase.
Section Board.

(** The class [Board] lives in another module of the package: its type is a
    parameter here. *)
Context (Board : Type).

Record t : Type := Make {
  board : Board;
  name : string
}.

(** [Player.__init__].  [count] is the class attribute [Player.count] when
    the call begins and [new_board] the value [Board()] would build; the
    result is [Player.count] when the call ends and the new player. *)
Definition init (count : Z) (new_board : Board)
    (board : option Board) (name : option string) : Z * t :=
  let b := match board with None => new_board | Some b => b end in
  let count := count + 1 in
  (count,
   Make b (match name with
           | None => "Player " +:+ pretty count
           | Some n => n
           end)).

(** [Player.__str__]. *)
Definition str (p : t) : string := name p.

(** Players built one after the other, each from its [Board()], its
    [board] argument and its [name] argument. *)
Fixpoint create (count : Z)
    (args : list (Board * option Board * option string)) : Z * list t :=
  match args with
  | [] => (count, [])
  | (new_board, board, name) :: rest =>
      let '(count, p) := init count new_board board name in
      let '(count, ps) := create count rest in
      (count, p :: ps)
  end.

End Board.
End PlayerBase.

(** * Properties *)

(** One step of the error monad, without unfolding the methods. *)
Ltac mstep :=
  cbn [mbind mret outcome_bind outcome_ret unpack item0 item1 fst snd].

(** ** Basic facts *)

Lemma legal_spec p x y :
  legal p (x, y) = true ↔
  (1 ≤ x ≤ board_width p /\ 1 ≤ y ≤ board_height p) /\
  (PCell x y ∉ tracker p) /\ ((x, y) ∉ dont_choose p).
Proof.
  unfold legal, in_bounds, forbidden; simpl.
  rewrite andb_true_iff, negb_true_iff, orb_false_iff, !andb_true_iff.
  rewrite !bool_decide_eq_false, !Z.leb_le. tauto.
Qed.

Lemma check_legal p c :
  legal p c = true -> check p c = PCell c.1 c.2.
Proof.
  unfold legal, check. intros [Hb Hf]%andb_true_iff.
  rewrite Hb. apply negb_true_iff in Hf. rewrite Hf. reflexivity.
Qed.

Lemma check_illegal p c :
  legal p c = false -> check p c = PFalse.
Proof.
  unfold legal, check. destruct (in_bounds p c), (forbidden p c); simpl;
    congruence.
Qed.

Lemma check_cases p c :
  check p c = PFalse \/ (check p c = PCell c.1 c.2 /\ legal p c = true).
Proof.
  destruct (legal p c) eqn:E.
  - right. split; [apply check_legal, E | reflexivity].
  - left. apply check_illegal, E.
Qed.

Lemma first_legal_cases p x y ds :
  first_legal p x y ds = PNone \/
  exists dx dy, (dx, dy) ∈ ds /\ legal p (x + dx, y + dy) = true /\
                first_legal p x y ds = PCell (x + dx) (y + dy).
Proof.
  induction ds as [|[dx dy] ds IH]; simpl.
  - left. reflexivity.
  - destruct (legal p (x + dx, y + dy)) eqn:E.
    + right. exists dx, dy. split; [apply list_elem_of_here | auto].
    + destruct IH as [IH | (dx' & dy' & Hin & Hl & Hr)]; [left; exact IH |].
      right. exists dx', dy'. split; [apply list_elem_of_further, Hin | auto].
Qed.

(** [first_legal] is the search the specification describes: the first
    element of the list of neighbours that passes the test. *)
Lemma first_legal_find p x y ds c :
  find (legal p) (map (fun d => (x + d.1, y + d.2)) ds) = Some c ->
  first_legal p x y ds = PCell c.1 c.2.
Proof.
  induction ds as [|[dx dy] ds IH]; simpl; [discriminate |].
  destruct (legal p (x + dx, y + dy)).
  - intros [= <-]. reflexivity.
  - exact IH.
Qed.

Lemma choose_randomly_cases p draws c :
  choose_randomly p draws = Returns c ->
  c ∈ draws /\ forbidden p c = false.
Proof.
  induction draws as [|d draws IH]; simpl; [discriminate |].
  destruct (forbidden p d) eqn:E.
  - intros H. destruct (IH H) as [Hin Hf].
    split; [apply list_elem_of_further, Hin | exact Hf].
  - intros [= <-]. split; [apply list_elem_of_here | exact E].
Qed.

(** The sampling loop stops as soon as the source hands out one pair that
    is not forbidden. *)
Lemma choose_randomly_returns p draws :
  (exists c, c ∈ draws /\ forbidden p c = false) ->
  exists c, choose_randomly p draws = Returns c.
Proof.
  induction draws as [|d draws IH]; intros (c & Hin & Hf).
  - inversion Hin.
  - simpl. destruct (forbidden p d) eqn:E; [| eauto].
    apply IH. exists c. split; [| exact Hf].
    apply elem_of_cons in Hin as [-> | Hin]; [congruence | exact Hin].
Qed.

(** What [select_target] writes: the returned value goes into [tracker] and
    [last_hit]; nothing else is assigned. *)
Lemma select_target_writes draws p v p' :
  select_target draws p = Returns (v, p') ->
  p' = set_last_hit v (set_tracker ({[ v ]} ∪ tracker p) p).
Proof.
  unfold select_target.
  match goal with |- context [mbind _ ?m] => destruct m as [cell| |] end;
    simpl; [| discriminate | discriminate].
  intros [= <- <-]. reflexivity.
Qed.

Lemma select_target_keeps_pursuit draws p v p' :
  select_target draws p = Returns (v, p') ->
  current_ship_info p' = current_ship_info p.
Proof. intros ->%select_target_writes. reflexivity. Qed.

(** Every returned value is recorded, whatever the branch. *)
Lemma select_target_records draws p v p' :
  select_target draws p = Returns (v, p') ->
  v ∈ tracker p' /\ last_hit p' = v.
Proof.
  intros ->%select_target_writes. simpl. split; [set_solver | reflexivity].
Qed.

(** A returned pair was not in [tracker] nor in [dont_choose] before the
    call, whatever the branch. *)
Lemma select_target_fresh_cell draws p x y p' :
  select_target draws p = Returns (PCell x y, p') ->
  (PCell x y ∉ tracker p) /\ ((x, y) ∉ dont_choose p).
Proof.
  assert (Hforb : forall c, forbidden p c = false ->
            (PCell c.1 c.2 ∉ tracker p) /\ (c ∉ dont_choose p)).
  { intros c [H1 H2]%orb_false_iff.
    apply bool_decide_eq_false in H1, H2. auto. }
  assert (Hchk : forall c, check p c = PCell x y ->
            (PCell x y ∉ tracker p) /\ ((x, y) ∉ dont_choose p)).
  { intros [cx cy] H. destruct (check_cases p (cx, cy)) as [E | [E Hl]];
      rewrite E in H; [discriminate |].
    simpl in H. injection H as -> ->. apply legal_spec in Hl. tauto. }
  unfold select_target.
  destruct (active (current_ship_info p)); mstep.
  - destruct (direction (current_ship_info p)).
    + unfold choose_around_cell.
      destruct (start (current_ship_info p)) as [| |sx sy]; mstep;
        try discriminate.
      destruct (first_legal_cases p sx sy offsets)
        as [E | (dx & dy & _ & Hl & E)]; rewrite E; mstep;
        intros [= ? ? ?]; subst.
      apply legal_spec in Hl. tauto.
    + unfold check_left, check_right.
      destruct (start (current_ship_info p)) as [| |sx sy],
               (end_ (current_ship_info p)) as [| |ex ey],
               (start_found (current_ship_info p)); mstep;
        try discriminate.
      all: cbn [Bool.eqb negb truthy].
      all: try (destruct (check p (sx - 1, sy)) eqn:E1; mstep;
             cbn [truthy negb]; try discriminate).
      all: intros [= H ?]; subst; eauto.
      all: try (rewrite <- H in *; eauto).
    + unfold check_above, check_below.
      destruct (start (current_ship_info p)) as [| |sx sy],
               (end_ (current_ship_info p)) as [| |ex ey],
               (start_found (current_ship_info p)); mstep;
        try discriminate.
      all: cbn [Bool.eqb negb truthy].
      all: try (destruct (check p (sx, sy - 1)) eqn:E1; mstep;
             cbn [truthy negb]; try discriminate).
      all: intros [= H ?]; subst; eauto.
      all: try (rewrite <- H in *; eauto).
  - cbn [negb]. destruct (choose_randomly p draws) as [c| |] eqn:E; mstep;
      try discriminate.
    intros [= <- <- _]. apply choose_randomly_cases in E as [_ E].
    apply (Hforb c E).
Qed.

(** ** Direction unknown: the four neighbours of [start] *)

Lemma offsets_neighbours x y :
  map (fun d => (x + d.1, y + d.2)) offsets = neighbours x y.
Proof.
  unfold offsets, neighbours. cbn [map fst snd].
  rewrite !Z.add_0_r. reflexivity.
Qed.

Lemma seeking_select draws p x y :
  active (current_ship_info p) = true ->
  direction (current_ship_info p) = DNone ->
  start (current_ship_info p) = PCell x y ->
  select_target draws p =
    Returns (first_legal p x y offsets,
             set_last_hit (first_legal p x y offsets)
               (set_tracker ({[ first_legal p x y offsets ]} ∪ tracker p) p)).
Proof.
  intros Ha Hd Hs. unfold select_target, choose_around_cell.
  rewrite Ha, Hd, Hs. reflexivity.
Qed.

(** C8: with a pursuit active and the direction unknown, [select_target]
    returns the first of the neighbours of [start], taken in the order
    left, up, right, down, that is in bounds, not in [tracker] and not in
    [dont_choose]; the result does not depend on the random draws. *)
Theorem C8_seeking_first_legal_neighbour p x y :
  active (current_ship_info p) = true ->
  direction (current_ship_info p) = DNone ->
  start (current_ship_info p) = PCell x y ->
  (forall c draws,
      find (legal p) (neighbours x y) = Some c ->
      selects draws p (PCell c.1 c.2)) /\
  (forall draws1 draws2, select_target draws1 p = select_target draws2 p).
Proof.
  intros Ha Hd Hs. split.
  - intros c draws Hfind. rewrite <- offsets_neighbours in Hfind.
    apply first_legal_find in Hfind.
    eexists. rewrite (seeking_select draws p x y Ha Hd Hs), Hfind.
    reflexivity.
  - intros draws1 draws2.
    rewrite (seeking_select draws1 p x y Ha Hd Hs).
    rewrite (seeking_select draws2 p x y Ha Hd Hs). reflexivity.
Qed.

Lemma C8_witness :
  selects [] seeking_example (PCell 2 4) /\
  select_target [(7, 7)] seeking_example = select_target [] seeking_example.
Proof.
  destruct (C8_seeking_first_legal_neighbour seeking_example 1 4
              eq_refl eq_refl eq_refl) as [Hfirst Hdet].
  split.
  - apply (Hfirst (2, 4) []). vm_compute. reflexivity.
  - apply Hdet.
Defined.

(** ** Direction known: the two extremities *)

Lemma check_left_eq p x y :
  start (current_ship_info p) = PCell x y ->
  check_left p = Returns (check p (x - 1, y)).
Proof. unfold check_left. intros ->. reflexivity. Qed.

Lemma check_right_eq p x y :
  end_ (current_ship_info p) = PCell x y ->
  check_right p = Returns (check p (x + 1, y)).
Proof. unfold check_right. intros ->. reflexivity. Qed.

Lemma check_above_eq p x y :
  start (current_ship_info p) = PCell x y ->
  check_above p = Returns (check p (x, y - 1)).
Proof. unfold check_above. intros ->. reflexivity. Qed.

Lemma check_below_eq p x y :
  end_ (current_ship_info p) = PCell x y ->
  check_below p = Returns (check p (x, y + 1)).
Proof. unfold check_below. intros ->. reflexivity. Qed.

Lemma extending_select draws p sx sy ex ey :
  active (current_ship_info p) = true ->
  start (current_ship_info p) = PCell sx sy ->
  end_ (current_ship_info p) = PCell ex ey ->
  direction (current_ship_info p) <> DNone ->
  let v :=
    match direction (current_ship_info p) with
    | DH => extension_probe p (sx - 1, sy) (ex + 1, ey)
    | _ => extension_probe p (sx, sy - 1) (ex, ey + 1)
    end in
  select_target draws p =
    Returns (v, set_last_hit v (set_tracker ({[ v ]} ∪ tracker p) p)).
Proof.
  intros Ha Hs He Hd. unfold select_target, extension_probe.
  rewrite Ha.
  rewrite (check_left_eq p sx sy Hs), (check_right_eq p ex ey He).
  rewrite (check_above_eq p sx sy Hs), (check_below_eq p ex ey He).
  destruct (direction (current_ship_info p)); [congruence | |];
    destruct (start_found (current_ship_info p)); cbn [Bool.eqb negb];
    mstep; try reflexivity.
  - destruct (check p (sx - 1, sy)); reflexivity.
  - destruct (check p (sx, sy - 1)); reflexivity.
Qed.

Lemma extension_probe_near p near far :
  start_found (current_ship_info p) = false ->
  legal p near = true ->
  extension_probe p near far = PCell near.1 near.2.
Proof.
  intros Hf Hl. unfold extension_probe.
  rewrite Hf, (check_legal p near Hl). reflexivity.
Qed.

Lemma extension_probe_far p near far :
  start_found (current_ship_info p) = true \/ legal p near = false ->
  extension_probe p near far = check p far.
Proof.
  unfold extension_probe.
  intros [-> | Hl]; [reflexivity |].
  rewrite (check_illegal p near Hl).
  destruct (start_found (current_ship_info p)); reflexivity.
Qed.

(** C6, as stated, fails: with (1, 5) and (3, 5) both attempted the call
    returns [False], not the cell right of [end]. *)
Lemma C6_right_of_end_not_returned :
  let p := extending_example [PCell 2 5; PCell 1 5; PCell 3 5] in
  active (current_ship_info p) = true /\
  direction (current_ship_info p) = DH /\
  start_found (current_ship_info p) = false /\
  legal p (1, 5) = false /\
  selects [] p PFalse /\
  ~ selects [] p (PCell 3 5).
Proof.
  cbv zeta. repeat split; try reflexivity.
  - eexists. vm_compute. reflexivity.
  - intros [p' H]. vm_compute in H. discriminate H.
Qed.

(** C6 (amended): with a pursuit active from [(sx, sy)] to [(ex, ey)] and
    the direction horizontal, [select_target] returns the cell left of
    [start] when [start_found] is false and that cell is in bounds, not
    attempted and not excluded; when [start_found] is true, or the cell left
    of [start] fails that test, it returns the cell right of [end] provided
    that this cell is in bounds, not attempted and not excluded.  The same
    holds for the vertical direction with the cell above [start] and the
    cell below [end]. *)
Theorem C6_extension_order draws p sx sy ex ey :
  active (current_ship_info p) = true ->
  start (current_ship_info p) = PCell sx sy ->
  end_ (current_ship_info p) = PCell ex ey ->
  (direction (current_ship_info p) = DH ->
     (start_found (current_ship_info p) = false ->
      legal p (sx - 1, sy) = true ->
      selects draws p (PCell (sx - 1) sy)) /\
     (start_found (current_ship_info p) = true \/
      legal p (sx - 1, sy) = false ->
      legal p (ex + 1, ey) = true ->
      selects draws p (PCell (ex + 1) ey))) /\
  (direction (current_ship_info p) = DV ->
     (start_found (current_ship_info p) = false ->
      legal p (sx, sy - 1) = true ->
      selects draws p (PCell sx (sy - 1))) /\
     (start_found (current_ship_info p) = true \/
      legal p (sx, sy - 1) = false ->
      legal p (ex, ey + 1) = true ->
      selects draws p (PCell ex (ey + 1)))).
Proof.
  intros Ha Hs He.
  split; intros Hd; (split; [intros Hf Hl | intros Hf Hl]); eexists;
    rewrite (extending_select draws p sx sy ex ey Ha Hs He)
      by (rewrite Hd; discriminate);
    cbv zeta; rewrite Hd.
  - rewrite (extension_probe_near _ _ _ Hf Hl). reflexivity.
  - rewrite (extension_probe_far _ _ _ Hf), (check_legal _ _ Hl). reflexivity.
  - rewrite (extension_probe_near _ _ _ Hf Hl). reflexivity.
  - rewrite (extension_probe_far _ _ _ Hf), (check_legal _ _ Hl). reflexivity.
Qed.

Lemma C6_witness :
  selects [] (extending_example [PCell 2 5]) (PCell 1 5) /\
  selects [] (extending_example [PCell 2 5; PCell 1 5]) (PCell 3 5).
Proof.
  split.
  - apply (C6_extension_order [] (extending_example [PCell 2 5]) 2 5 2 5
             eq_refl eq_refl eq_refl); reflexivity.
  - apply (C6_extension_order []
             (extending_example [PCell 2 5; PCell 1 5]) 2 5 2 5
             eq_refl eq_refl eq_refl);
      [reflexivity | right; vm_compute; reflexivity
      | vm_compute; reflexivity].
Defined.

(** ** Recording a hit *)

Lemma length_snoc_test (l : list pyval) (c : pyval) :
  (Z.of_nat (length (l ++ [c])) =? 1) =
  match l with [] => true | _ => false end.
Proof.
  destruct l as [|a l]; [reflexivity |].
  apply Z.eqb_neq. rewrite length_app. simpl. lia.
Qed.

(** With cells in [start] and in the argument, [update_current_ship] does
    not raise, appends the cell to [hits], leaves cells in [start] and
    [end], and touches nothing outside the pursuit record. *)
Lemma update_current_ship_returns p cx cy sx sy ex ey :
  start (current_ship_info p) = PCell sx sy ->
  end_ (current_ship_info p) = PCell ex ey ->
  exists i,
    update_current_ship (PCell cx cy) p = Returns (set_info i p) /\
    hits i = hits (current_ship_info p) ++ [PCell cx cy] /\
    (exists x y, start i = PCell x y) /\
    (exists x y, end_ i = PCell x y).
Proof.
  destruct p as [w h t dc l [a s e d len hs sf ef]]; simpl.
  intros -> ->. unfold update_current_ship, extend_boundaries; simpl.
  destruct d; simpl.
  - rewrite length_snoc_test. destruct hs as [|h0 hs]; simpl.
    + destruct (cx <? cx); eexists; (split; [reflexivity | simpl; eauto 10]).
    + destruct (cx =? sx); simpl;
        [destruct (cy <? sy)
        | destruct (cy =? sy); simpl; destruct (cx <? sx)];
        eexists; (split; [reflexivity | simpl; eauto 10]).
  - destruct (cx <? sx); eexists; (split; [reflexivity | simpl; eauto 10]).
  - destruct (cy <? sy); eexists; (split; [reflexivity | simpl; eauto 10]).
Qed.

(** C5: with a pursuit active at [start = end = (sx, sy)] and the direction
    unknown, a hit (not a sink) at a new cell [(cx, cy)] is appended to
    [hits]; the direction becomes vertical if the cell shares [sx] and
    horizontal if it shares [sy]; along that axis the smaller of the two
    cells becomes [start] and the larger [end]. *)
Theorem C5_direction_inference p sx sy cx cy :
  active (current_ship_info p) = true ->
  direction (current_ship_info p) = DNone ->
  start (current_ship_info p) = PCell sx sy ->
  end_ (current_ship_info p) = PCell sx sy ->
  hits (current_ship_info p) <> [] ->
  last_hit p = PCell cx cy ->
  (cx, cy) <> (sx, sy) ->
  exists q,
    receive_result true false p = Returns q /\
    hits (current_ship_info q) = hits (current_ship_info p) ++ [PCell cx cy] /\
    (cx = sx ->
       direction (current_ship_info q) = DV /\
       start (current_ship_info q) = PCell sx (Z.min sy cy) /\
       end_ (current_ship_info q) = PCell sx (Z.max sy cy)) /\
    (cy = sy ->
       direction (current_ship_info q) = DH /\
       start (current_ship_info q) = PCell (Z.min sx cx) sy /\
       end_ (current_ship_info q) = PCell (Z.max sx cx) sy).
Proof.
  destruct p as [w h t dc l [a s e d len hs sf ef]]; simpl.
  intros -> -> -> -> Hhs -> Hne.
  unfold receive_result, update_current_ship, extend_boundaries; simpl.
  rewrite length_snoc_test. destruct hs as [|h0 hs]; [congruence |]. simpl.
  destruct (Z.eqb_spec cx sx) as [-> | Hx]; simpl.
  - destruct (Z.ltb_spec cy sy); eexists;
      (split; [reflexivity |]); simpl; (split; [reflexivity |]);
      (split; [intros _ | intros ->; congruence]);
      repeat split; f_equal; lia.
  - destruct (Z.eqb_spec cy sy) as [-> | Hy]; simpl.
    + destruct (Z.ltb_spec cx sx); eexists;
        (split; [reflexivity |]); simpl; (split; [reflexivity |]);
        (split; [intros ->; congruence | intros _]);
        repeat split; f_equal; lia.
    + destruct (cx <? sx); eexists;
        (split; [reflexivity |]); simpl; (split; [reflexivity |]);
        split; intros; congruence.
Qed.

Lemma C5_witness :
  exists q,
    second_hit_46 = Returns after_second_target /\
    receive_result true false after_second_target = Returns q /\
    direction (current_ship_info q) = DV /\
    start (current_ship_info q) = PCell 4 4 /\
    end_ (current_ship_info q) = PCell 4 6.
Proof.
  destruct (C5_direction_inference after_second_target 4 4 4 6)
    as (q & Hq & _ & Hv & _);
    [reflexivity | reflexivity | reflexivity | reflexivity
    | discriminate | reflexivity | congruence |].
  exists q. split; [reflexivity |]. split; [exact Hq |].
  exact (Hv eq_refl).
Defined.

(** ** Recording a miss *)

(** C9: a miss ([is_ship_hit = False], [has_ship_sunk = False]) with no
    pursuit active, or with the direction unknown, only adds [last_hit] to
    [tracker]: [dont_choose], the pursuit record and [last_hit] stay as they
    are.  With the direction known and [start] not after [end] along the
    axis, it sets [start_found] if the missed cell lies strictly before
    [start], sets [end_found] if it lies strictly after [end], and changes
    nothing else ([tracker] included). *)
Theorem C9_miss_effects p :
  (active (current_ship_info p) = false \/
   direction (current_ship_info p) = DNone ->
   receive_result false false p =
     Returns (set_tracker ({[ last_hit p ]} ∪ tracker p) p)) /\
  (forall c s e,
     active (current_ship_info p) = true ->
     along (direction (current_ship_info p)) (last_hit p) = Some c ->
     along (direction (current_ship_info p)) (start (current_ship_info p))
       = Some s ->
     along (direction (current_ship_info p)) (end_ (current_ship_info p))
       = Some e ->
     s ≤ e ->
     receive_result false false p =
       Returns (set_info
                  (with_found
                     (if c <? s then true
                      else start_found (current_ship_info p))
                     (if c >? e then true
                      else end_found (current_ship_info p))
                     (current_ship_info p))
                  p)).
Proof.
  destruct p as [w h t dc l [a s0 e0 d len hs sf ef]]; simpl. split.
  - unfold receive_result; simpl. intros [-> | ->]; [reflexivity |].
    destruct a; reflexivity.
  - intros c s e -> Hc Hs He Hle.
    unfold receive_result, found_end; simpl.
    destruct d, l as [| |lx ly], s0 as [| |sx sy], e0 as [| |ex ey];
      simpl in *; try discriminate;
      injection Hc as ->; injection Hs as ->; injection He as ->.
    + destruct (Z.ltb_spec c s), (Z.gtb_spec c e); simpl;
        try reflexivity; lia.
    + destruct (Z.ltb_spec c s), (Z.gtb_spec c e); simpl;
        try reflexivity; lia.
Qed.

Lemma C9_witness :
  receive_result false false (new_player 10 10) =
    Returns (set_tracker ({[ PNone ]} ∪ ∅) (new_player 10 10)) /\
  receive_result false false missed_left_example =
    Returns (set_info
               (with_found true false (current_ship_info missed_left_example))
               missed_left_example).
Proof.
  split.
  - apply (C9_miss_effects (new_player 10 10)). left. reflexivity.
  - apply (proj2 (C9_miss_effects missed_left_example) 3 4 5);
      [reflexivity | reflexivity | reflexivity | reflexivity | lia].
Defined.

(** ** Recording a sink *)

Lemma elem_of_range k a b : k ∈ range a b ↔ a ≤ k < b.
Proof. unfold range. rewrite elem_of_seqZ. lia. Qed.

Lemma elem_of_add_column (x : Z) (ys : list Z) (acc : gset (Z * Z)) c :
  c ∈ foldl (fun acc y => {[ (x, y) ]} ∪ acc) acc ys ↔
  c ∈ acc \/ (c.1 = x /\ c.2 ∈ ys).
Proof.
  revert acc. induction ys as [|y ys IH]; intros acc; simpl.
  - rewrite elem_of_nil. tauto.
  - rewrite IH, elem_of_union, elem_of_singleton, elem_of_cons.
    destruct c as [c1 c2]; simpl. split.
    + intros [[[= -> ->] | H] | [H1 H2]]; auto.
    + intros [H | [-> [-> | H]]]; auto.
Qed.

Lemma elem_of_add_block (xs ys : list Z) (acc : gset (Z * Z)) c :
  c ∈ foldl (fun acc x => foldl (fun acc y => {[ (x, y) ]} ∪ acc) acc ys)
        acc xs ↔
  c ∈ acc \/ (c.1 ∈ xs /\ c.2 ∈ ys).
Proof.
  revert acc. induction xs as [|x xs IH]; intros acc; simpl.
  - rewrite elem_of_nil. tauto.
  - rewrite IH, elem_of_add_column, elem_of_cons. split.
    + intros [[H | [-> H]] | [H1 H2]]; auto.
    + intros [H | [[-> | H1] H2]]; auto.
Qed.

(** [dont_hit_nearby_cells] adds the bounding rectangle of the pursuit,
    grown by one cell on each side, and nothing else. *)
Lemma dont_hit_nearby_cells_spec p x1 y1 x2 y2 :
  start (current_ship_info p) = PCell x1 y1 ->
  end_ (current_ship_info p) = PCell x2 y2 ->
  exists dc,
    dont_hit_nearby_cells p = Returns (set_dont_choose dc p) /\
    forall x y, (x, y) ∈ dc ↔
                (x, y) ∈ dont_choose p \/
                (x1 - 1 ≤ x ≤ x2 + 1 /\ y1 - 1 ≤ y ≤ y2 + 1).
Proof.
  intros Hs He. unfold dont_hit_nearby_cells. rewrite Hs, He. mstep.
  eexists. split; [reflexivity |].
  intros x y. rewrite elem_of_add_block, !elem_of_range. cbn [fst snd].
  split; (intros [H | H]; [left; exact H | right; lia]).
Qed.

(** C2, as stated, fails: the cells excluded for a pursuit from (3, 3) to
    (3, 5) are 3 columns by 5 rows, 15 cells, not a 5 x 5 block. *)
Lemma C2_excluded_block_not_5_by_5 :
  exists p',
    receive_result true true sunk_example = Returns p' /\
    size (dont_choose p') = 15%nat /\
    size (dont_choose p') <> (5 * 5)%nat.
Proof.
  eexists. split; [vm_compute; reflexivity |].
  split; [vm_compute; reflexivity | vm_compute; discriminate].
Qed.

(** C2 (amended): with a pursuit active, [receive_result] with
    [has_ship_sunk = True] folds [last_hit] into the pursuit as a hit that
    does not sink would ([q] below), adds to [dont_choose] exactly the cells
    [(x, y)] with [start.x - 1 <= x <= end.x + 1] and
    [start.y - 1 <= y <= end.y + 1] for the folded [start] and [end], cells
    outside the board included, and resets the pursuit.  In particular, for
    the pursuit that runs from (3, 3) to (3, 5) once the last target is
    folded in, with nothing excluded before, the excluded cells are exactly
    the 3 x 5 rectangle from (2, 2) to (4, 6), 15 cells. *)
Theorem C2_sink_excludes_bounding_rectangle :
  (forall is_ship_hit p cx cy sx sy ex ey,
     active (current_ship_info p) = true ->
     last_hit p = PCell cx cy ->
     start (current_ship_info p) = PCell sx sy ->
     end_ (current_ship_info p) = PCell ex ey ->
     exists q x1 y1 x2 y2 p',
       receive_result true false p = Returns q /\
       start (current_ship_info q) = PCell x1 y1 /\
       end_ (current_ship_info q) = PCell x2 y2 /\
       receive_result is_ship_hit true p = Returns p' /\
       (forall x y,
          (x, y) ∈ dont_choose p' ↔
          (x, y) ∈ dont_choose p \/
          (x1 - 1 ≤ x ≤ x2 + 1 /\ y1 - 1 ≤ y ≤ y2 + 1)) /\
       current_ship_info p' = fresh_ship_info /\
       tracker p' = tracker p /\
       last_hit p' = last_hit p) /\
  (forall is_ship_hit,
     exists p',
       receive_result is_ship_hit true sunk_example = Returns p' /\
       (forall x y, (x, y) ∈ dont_choose p' ↔ 2 ≤ x ≤ 4 /\ 2 ≤ y ≤ 6) /\
       size (dont_choose p') = (3 * 5)%nat /\
       current_ship_info p' = fresh_ship_info).
Proof.
  assert (General : forall is_ship_hit p cx cy sx sy ex ey,
     active (current_ship_info p) = true ->
     last_hit p = PCell cx cy ->
     start (current_ship_info p) = PCell sx sy ->
     end_ (current_ship_info p) = PCell ex ey ->
     exists q x1 y1 x2 y2 p',
       receive_result true false p = Returns q /\
       start (current_ship_info q) = PCell x1 y1 /\
       end_ (current_ship_info q) = PCell x2 y2 /\
       receive_result is_ship_hit true p = Returns p' /\
       (forall x y,
          (x, y) ∈ dont_choose p' ↔
          (x, y) ∈ dont_choose p \/
          (x1 - 1 ≤ x ≤ x2 + 1 /\ y1 - 1 ≤ y ≤ y2 + 1)) /\
       current_ship_info p' = fresh_ship_info /\
       tracker p' = tracker p /\
       last_hit p' = last_hit p).
  { intros is_ship_hit p cx cy sx sy ex ey Ha Hl Hs He.
    destruct (update_current_ship_returns p cx cy sx sy ex ey Hs He)
      as (i & Hu & _ & (x1 & y1 & Hs') & (x2 & y2 & He')).
    destruct (dont_hit_nearby_cells_spec (set_info i p) x1 y1 x2 y2 Hs' He')
      as (dc & Hd & Hdc).
    exists (set_info i p), x1, y1, x2, y2.
    exists (reset_current_ship (set_dont_choose dc (set_info i p))).
    unfold receive_result. rewrite Ha, Hl, Hu. mstep. rewrite Hd. mstep.
    cbn [negb]. repeat split; auto; apply Hdc. }
  split; [exact General |].
  intros is_ship_hit.
  destruct (General is_ship_hit sunk_example 3 5 3 3 3 4
              eq_refl eq_refl eq_refl eq_refl)
    as (q & x1 & y1 & x2 & y2 & p' & Hq & Hs & He & Hp' & Hdc & Hi & _).
  vm_compute in Hq. injection Hq as <-.
  injection Hs as <- <-. injection He as <- <-.
  exists p'. split; [exact Hp' |]. split; [| split; [| exact Hi]].
  - intros x y. rewrite Hdc. cbn [sunk_example player_with dont_choose].
    rewrite elem_of_empty. lia.
  - destruct is_ship_hit; vm_compute in Hp'; injection Hp' as <-;
      vm_compute; reflexivity.
Qed.

Lemma C2_witness :
  exists p',
    receive_result true true sunk_example = Returns p' /\
    forall x y,
      (x, y) ∈ dont_choose p' ↔
      (x, y) ∈ dont_choose sunk_example \/
      (3 - 1 ≤ x ≤ 3 + 1 /\ 3 - 1 ≤ y ≤ 5 + 1).
Proof.
  destruct (proj1 C2_sink_excludes_bounding_rectangle true sunk_example
              3 5 3 3 3 4 eq_refl eq_refl eq_refl eq_refl)
    as (q & x1 & y1 & x2 & y2 & p' & Hq & Hs & He & Hp' & Hdc & _).
  vm_compute in Hq. injection Hq as <-.
  injection Hs as <- <-. injection He as <- <-.
  exists p'. split; [exact Hp' | exact Hdc].
Defined.

(** ** The pursuit along a run *)

Lemma select_target_probe draws p v p' :
  select_target draws p = Returns (v, p') -> probe_ok p'.
Proof.
  intros H. pose proof (select_target_writes _ _ _ _ H) as ->.
  unfold probe_ok. cbn [current_ship_info last_hit set_last_hit set_tracker].
  revert H. unfold select_target.
  destruct (active (current_ship_info p)); cbn [negb].
  - destruct (direction (current_ship_info p)).
    + unfold choose_around_cell.
      destruct (start (current_ship_info p)) as [| |sx sy]; mstep;
        try discriminate.
      destruct (first_legal_cases p sx sy offsets)
        as [E | (dx & dy & Hin & _ & E)]; rewrite E; mstep;
        intros [= <-]; [left; reflexivity |].
      right. exists sx, sy, dx, dy. auto.
    + unfold check_left, check_right.
      destruct (start (current_ship_info p)) as [| |sx sy],
               (end_ (current_ship_info p)) as [| |ex ey],
               (start_found (current_ship_info p)); mstep;
        try discriminate; cbn [Bool.eqb negb truthy].
      all: try (destruct (check_cases p (sx - 1, sy)) as [E1 | [E1 _]];
                rewrite E1; mstep; cbn [truthy negb]; try discriminate).
      all: try (destruct (check_cases p (ex + 1, ey)) as [E2 | [E2 _]];
                rewrite E2).
      all: intros [= <-]; eauto 10.
    + unfold check_above, check_below.
      destruct (start (current_ship_info p)) as [| |sx sy],
               (end_ (current_ship_info p)) as [| |ex ey],
               (start_found (current_ship_info p)); mstep;
        try discriminate; cbn [Bool.eqb negb truthy].
      all: try (destruct (check_cases p (sx, sy - 1)) as [E1 | [E1 _]];
                rewrite E1; mstep; cbn [truthy negb]; try discriminate).
      all: try (destruct (check_cases p (ex, ey + 1)) as [E2 | [E2 _]];
                rewrite E2).
      all: intros [= <-]; eauto 10.
  - destruct (choose_randomly p draws) as [c| |]; mstep; try discriminate.
    intros [= <-]. eauto.
Qed.

Lemma sink_resets is_ship_hit p p' :
  receive_result is_ship_hit true p = Returns p' ->
  current_ship_info p' = fresh_ship_info.
Proof.
  unfold receive_result.
  destruct (update_current_ship (last_hit p) p) as [p1| |]; mstep;
    try discriminate.
  destruct (dont_hit_nearby_cells p1) as [p2| |]; mstep; try discriminate.
  intros [= <-]. reflexivity.
Qed.

Lemma elem_of_offsets dx dy :
  (dx, dy) ∈ offsets ->
  (dx = -1 /\ dy = 0) \/ (dx = 0 /\ dy = -1) \/
  (dx = 1 /\ dy = 0) \/ (dx = 0 /\ dy = 1).
Proof.
  unfold offsets. rewrite !elem_of_cons, elem_of_nil.
  intros [[= -> ->] | [[= -> ->] | [[= -> ->] | [[= -> ->] | []]]]]; auto.
Qed.

(** A miss leaves the extent of the pursuit alone: [found_end] only sets
    flags. *)
Lemma miss_keeps_extent p p' :
  receive_result false false p = Returns p' ->
  active (current_ship_info p') = active (current_ship_info p) /\
  start (current_ship_info p') = start (current_ship_info p) /\
  end_ (current_ship_info p') = end_ (current_ship_info p) /\
  direction (current_ship_info p') = direction (current_ship_info p) /\
  hits (current_ship_info p') = hits (current_ship_info p).
Proof.
  destruct p as [w h t dc l [a s e d len hs sf ef]].
  unfold receive_result, found_end; simpl.
  destruct a; [| intros [= <-]; repeat split].
  destruct d; [intros [= <-]; repeat split | |];
    destruct l as [| |lx ly], s as [| |sx sy], e as [| |ex ey]; simpl;
    try discriminate;
    repeat match goal with
      | |- context [Z.ltb ?a ?b] => destruct (Z.ltb a b); simpl
      | |- context [Z.gtb ?a ?b] => destruct (Z.gtb a b); simpl
      end;
    try discriminate; intros [= <-]; repeat split.
Qed.

Ltac split_tests :=
  repeat match goal with
    | |- context [Z.eqb ?a ?b] => destruct (Z.eqb_spec a b); simpl
    | |- context [Z.ltb ?a ?b] => destruct (Z.ltb_spec a b); simpl
    end.

Ltac ordered :=
  simpl; first
    [ reflexivity
    | do 2 eexists; split; [reflexivity | split; [reflexivity | lia]] ].

(** A hit on the cell [select_target] has just probed keeps the pursuit in
    order. *)
Lemma hit_extends_pursuit p p' :
  active (current_ship_info p) = true ->
  pursuit_ok (current_ship_info p) ->
  probe_ok p ->
  update_current_ship (last_hit p) p = Returns p' ->
  pursuit_ok (current_ship_info p') /\ active (current_ship_info p') = true.
Proof.
  destruct p as [w h t dc l [a s e d len hs sf ef]].
  unfold pursuit_ok, probe_ok; simpl. intros -> Hp Hl.
  specialize (Hp eq_refl).
  unfold update_current_ship, extend_boundaries; simpl.
  destruct d.
  - subst e. rewrite length_snoc_test.
    destruct Hl as [-> | (x & y & dx & dy & -> & Hin & ->)].
    + destruct hs; simpl; discriminate.
    + apply elem_of_offsets in Hin
        as [[-> ->] | [[-> ->] | [[-> ->] | [-> ->]]]];
        destruct hs; simpl; split_tests; try lia;
        intros [= <-]; (split; [intros _; ordered | reflexivity]).
  - destruct Hp as (a & b & Hs & He & Hle).
    destruct s as [| |sx sy], e as [| |ex ey]; simpl in Hs, He;
      try discriminate. injection Hs as ->. injection He as ->.
    destruct Hl as [-> | [(x & y & [= <- <-] & ->) | (x & y & [= <- <-] & ->)]];
      simpl; try discriminate; split_tests; try lia;
      intros [= <-]; (split; [intros _; ordered | reflexivity]).
  - destruct Hp as (a & b & Hs & He & Hle).
    destruct s as [| |sx sy], e as [| |ex ey]; simpl in Hs, He;
      try discriminate. injection Hs as ->. injection He as ->.
    destruct Hl as [-> | [(x & y & [= <- <-] & ->) | (x & y & [= <- <-] & ->)]];
      simpl; try discriminate; split_tests; try lia;
      intros [= <-]; (split; [intros _; ordered | reflexivity]).
Qed.

Lemma receive_result_pursuit is_ship_hit has_ship_sunk p p' :
  pursuit_ok (current_ship_info p) ->
  idle_ok (current_ship_info p) ->
  probe_ok p ->
  receive_result is_ship_hit has_ship_sunk p = Returns p' ->
  pursuit_ok (current_ship_info p') /\ idle_ok (current_ship_info p').
Proof.
  intros Hp Hi Hl H. destruct has_ship_sunk.
  { rewrite (sink_resets _ _ _ H). split; [discriminate | split; reflexivity]. }
  destruct is_ship_hit.
  - unfold receive_result in H.
    destruct (active (current_ship_info p)) eqn:Ha; cbn [negb] in H.
    + destruct (hit_extends_pursuit p p' Ha Hp Hl H) as [Hp' Ha'].
      split; [exact Hp' |]. intros E. congruence.
    + injection H as <-. destruct (Hi Ha) as [Hd _].
      unfold pursuit_ok, idle_ok, initialise_ship; simpl.
      rewrite Hd. split; [reflexivity | discriminate].
  - destruct (miss_keeps_extent p p' H) as (Ea & Es & Ee & Ed & Eh).
    unfold pursuit_ok, idle_ok. rewrite Ea, Es, Ee, Ed, Eh. auto.
Qed.

(** The board does not change. *)
Lemma receive_result_board is_ship_hit has_ship_sunk p p' :
  receive_result is_ship_hit has_ship_sunk p = Returns p' ->
  board_width p' = board_width p /\ board_height p' = board_height p.
Proof.
  assert (Hu : forall c q q', update_current_ship c q = Returns q' ->
            board_width q' = board_width q /\
            board_height q' = board_height q).
  { intros c q q'. unfold update_current_ship.
    match goal with |- context [mbind _ ?m] => destruct m as [[d i]| |] end;
      mstep; try discriminate.
    destruct (extend_boundaries d c i); mstep; try discriminate.
    intros [= <-]. split; reflexivity. }
  assert (Hd : forall q q', dont_hit_nearby_cells q = Returns q' ->
            board_width q' = board_width q /\
            board_height q' = board_height q).
  { intros q q'. unfold dont_hit_nearby_cells.
    destruct (start (current_ship_info q)), (end_ (current_ship_info q));
      mstep; try discriminate.
    intros [= <-]. split; reflexivity. }
  assert (Hf : forall c q q', found_end c q = Returns q' ->
            board_width q' = board_width q /\
            board_height q' = board_height q).
  { intros c q q'. unfold found_end.
    destruct (direction (current_ship_info q)), c,
      (start (current_ship_info q)), (end_ (current_ship_info q));
      mstep; try discriminate;
      repeat match goal with
        | |- context [Z.ltb ?a ?b] => destruct (Z.ltb a b); mstep
        | |- context [Z.gtb ?a ?b] => destruct (Z.gtb a b); mstep
        end;
      try discriminate; intros [= <-]; split; reflexivity. }
  unfold receive_result. destruct has_ship_sunk.
  - destruct (update_current_ship (last_hit p) p) as [p1| |] eqn:E1; mstep;
      try discriminate.
    destruct (dont_hit_nearby_cells p1) as [p2| |] eqn:E2; mstep;
      try discriminate.
    intros [= <-]. apply Hu in E1. apply Hd in E2. simpl.
    destruct E1, E2. split; congruence.
  - destruct is_ship_hit.
    + destruct (active (current_ship_info p)); cbn [negb];
        [apply Hu | intros [= <-]; split; reflexivity].
    + destruct (active (current_ship_info p));
        [destruct (direction (current_ship_info p)) |];
        try apply Hf; intros [= <-]; split; reflexivity.
Qed.

Lemma reachable_invariant w h ph p :
  reachable w h ph p ->
  (board_width p = w /\ board_height p = h) /\
  pursuit_ok (current_ship_info p) /\
  idle_ok (current_ship_info p) /\
  (ph = Awaiting -> probe_ok p).
Proof.
  induction 1 as [| p draws v p' _ IH _ Hsel
                  | p is_hit has_sunk p' _ IH Hrec].
  - split; [split; reflexivity |].
    split; [discriminate |]. split; [split; reflexivity | discriminate].
  - destruct IH as (Hb & Hp & Hi & _).
    pose proof (select_target_probe _ _ _ _ Hsel) as Hl.
    apply select_target_writes in Hsel as ->.
    split; [exact Hb |]. split; [exact Hp |]. split; [exact Hi |].
    intros _. exact Hl.
  - destruct IH as (Hb & Hp & Hi & Hl). specialize (Hl eq_refl).
    destruct (receive_result_pursuit _ _ _ _ Hp Hi Hl Hrec) as [Hp' Hi'].
    destruct (receive_result_board _ _ _ _ Hrec) as [Hw Hh].
    split; [split; [rewrite Hw | rewrite Hh]; apply Hb |].
    split; [exact Hp' |]. split; [exact Hi' | discriminate].
Qed.

(** C7: along every run that alternates [select_target] and
    [receive_result] from a new player, before and after each of the two
    calls, an active pursuit has [start = end] while its direction is
    unknown and, once the direction is known, the coordinate of [start]
    along the axis is at most that of [end]. *)
Theorem C7_start_not_after_end w h ph p :
  reachable w h ph p ->
  active (current_ship_info p) = true ->
  match direction (current_ship_info p) with
  | DNone => start (current_ship_info p) = end_ (current_ship_info p)
  | d =>
      exists a b,
        along d (start (current_ship_info p)) = Some a /\
        along d (end_ (current_ship_info p)) = Some b /\
        a ≤ b
  end.
Proof.
  intros Hr. apply (reachable_invariant w h ph p Hr).
Qed.

Lemma update_current_ship_hits c p p' :
  update_current_ship c p = Returns p' ->
  hits (current_ship_info p') = hits (current_ship_info p) ++ [c].
Proof.
  destruct p as [w h t dc l [a s e d len hs sf ef]].
  unfold update_current_ship, extend_boundaries; simpl.
  destruct d; [rewrite length_snoc_test; destruct hs | |];
    destruct c as [| |cx cy], s as [| |sx sy]; simpl; try discriminate;
    repeat match goal with
      | |- context [Z.eqb ?a ?b] => destruct (Z.eqb a b); simpl
      | |- context [Z.ltb ?a ?b] => destruct (Z.ltb a b); simpl
      end;
    try discriminate; intros [= <-]; reflexivity.
Qed.

(** An active pursuit has at least one hit. *)
Lemma reachable_hits w h ph p :
  reachable w h ph p ->
  active (current_ship_info p) = true ->
  hits (current_ship_info p) <> [].
Proof.
  induction 1 as [| p draws v p' _ IH _ Hsel
                  | p is_hit has_sunk p' _ IH Hrec].
  - discriminate.
  - apply select_target_writes in Hsel as ->. exact IH.
  - destruct has_sunk.
    { rewrite (sink_resets _ _ _ Hrec). discriminate. }
    destruct is_hit.
    + unfold receive_result in Hrec.
      destruct (active (current_ship_info p)); cbn [negb] in Hrec.
      * rewrite (update_current_ship_hits _ _ _ Hrec). intros _.
        destruct (hits (current_ship_info p)); discriminate.
      * injection Hrec as <-. simpl. intros _.
        destruct (hits (current_ship_info p)); discriminate.
    + destruct (miss_keeps_extent p p' Hrec) as (Ea & _ & _ & _ & Eh).
      rewrite Ea, Eh. exact IH.
Qed.

(** When [select_target] has returned a cell during a pursuit, the state
    has the shape the statements about [receive_result] assume: [start] and
    [end] are cells, in order along the axis, and while the direction is
    unknown they are equal and differ from the cell returned. *)
Lemma awaiting_shape w h p cx cy :
  reachable w h Awaiting p ->
  active (current_ship_info p) = true ->
  last_hit p = PCell cx cy ->
  exists sx sy ex ey,
    start (current_ship_info p) = PCell sx sy /\
    end_ (current_ship_info p) = PCell ex ey /\
    hits (current_ship_info p) <> [] /\
    match direction (current_ship_info p) with
    | DNone => (sx, sy) = (ex, ey) /\ (cx, cy) <> (sx, sy)
    | DH => sx ≤ ex
    | DV => sy ≤ ey
    end.
Proof.
  intros Hr Ha Hl. pose proof (reachable_hits w h Awaiting p Hr Ha) as Hh.
  destruct (reachable_invariant w h Awaiting p Hr) as (_ & Hp & _ & Hpr).
  specialize (Hp Ha). specialize (Hpr eq_refl).
  unfold probe_ok in Hpr. rewrite Ha in Hpr.
  destruct (direction (current_ship_info p)).
  - destruct Hpr as [Hn | (x & y & dx & dy & Hs & Hin & Hc)]; [congruence |].
    exists x, y, x, y. rewrite <- Hp, Hs.
    repeat split; [exact Hh |].
    rewrite Hl in Hc. injection Hc as -> ->.
    apply elem_of_offsets in Hin
      as [[-> ->] | [[-> ->] | [[-> ->] | [-> ->]]]];
      intros [= ? ?]; lia.
  - destruct Hp as (a & b & Hs & He & Hle).
    destruct (start (current_ship_info p)) as [| |sx sy],
             (end_ (current_ship_info p)) as [| |ex ey];
      simpl in Hs, He; try discriminate.
    injection Hs as ->. injection He as ->.
    exists a, sy, b, ey. auto.
  - destruct Hp as (a & b & Hs & He & Hle).
    destruct (start (current_ship_info p)) as [| |sx sy],
             (end_ (current_ship_info p)) as [| |ex ey];
      simpl in Hs, He; try discriminate.
    injection Hs as ->. injection He as ->.
    exists sx, a, ex, b. auto.
Qed.

(** ** Whole turns *)

Lemma randint_ok_board p q draws :
  board_width p = board_width q ->
  board_height p = board_height q ->
  randint_ok p draws -> randint_ok q draws.
Proof.
  intros Hw Hh. unfold randint_ok, in_bounds. rewrite Hw, Hh. auto.
Qed.

Lemma play_reachable w h ts p p' :
  reachable w h Ready p ->
  Forall (fun t : turn => randint_ok (new_player w h) t.1) ts ->
  play ts p = Returns p' ->
  reachable w h Ready p'.
Proof.
  intros Hr Hts. revert p Hr.
  induction Hts as [|[draws [is_hit has_sunk]] ts Hd _ IH]; intros p Hr;
    simpl.
  - intros [= <-]. exact Hr.
  - destruct (select_target draws p) as [[v p1]| |] eqn:E1; mstep;
      try discriminate.
    destruct (receive_result is_hit has_sunk p1) as [p2| |] eqn:E2; mstep;
      try discriminate.
    apply IH. eapply reach_receive; [| exact E2].
    eapply reach_select; [exact Hr | | exact E1].
    destruct (reachable_invariant w h Ready p Hr) as [[Hw Hh] _].
    simpl in Hd. eapply randint_ok_board; [| | exact Hd]; simpl; congruence.
Qed.

Ltac draws_ok := repeat (constructor; try reflexivity).

Lemma after_reachable ts :
  Forall (fun t : turn => randint_ok (new_player 10 10) t.1) ts ->
  (exists p, play ts (new_player 10 10) = Returns p) ->
  reachable 10 10 Ready (after ts).
Proof.
  intros Hts [p Hp].
  apply (play_reachable 10 10 ts (new_player 10 10) _ (reach_new 10 10) Hts).
  unfold after. rewrite Hp. reflexivity.
Qed.

Lemma awaiting_after_reachable ts draws :
  Forall (fun t : turn => randint_ok (new_player 10 10) t.1) ts ->
  randint_ok (new_player 10 10) draws ->
  (exists p, play ts (new_player 10 10) = Returns p) ->
  (exists r, select_target draws (after ts) = Returns r) ->
  reachable 10 10 Awaiting (awaiting_after ts draws).
Proof.
  intros Hts Hd Hp [[v p'] Hs].
  pose proof (after_reachable ts Hts Hp) as Hr.
  apply (reach_select 10 10 (after ts) draws v); [exact Hr | |].
  - destruct (reachable_invariant 10 10 Ready _ Hr) as [[Hw Hh] _].
    eapply randint_ok_board; [| | exact Hd]; simpl; congruence.
  - unfold awaiting_after. rewrite Hs. reflexivity.
Qed.

Lemma C7_witness :
  exists a b,
    along DH (start (current_ship_info (after two_hits))) = Some a /\
    along DH (end_ (current_ship_info (after two_hits))) = Some b /\
    a ≤ b.
Proof.
  assert (Hr : reachable 10 10 Ready (after two_hits)).
  { apply after_reachable; [draws_ok |].
    eexists. vm_compute. reflexivity. }
  exact (C7_start_not_after_end 10 10 Ready (after two_hits) Hr eq_refl).
Defined.

(** ** A ship sunk by the first hit on it *)

(** On the idle record [update_current_ship] takes the [len(hits) == 1]
    branch: the cell becomes [start] and [end]. *)
Lemma update_when_idle p x y :
  direction (current_ship_info p) = DNone ->
  hits (current_ship_info p) = [] ->
  update_current_ship (PCell x y) p =
    Returns (set_info
               (set_end (PCell x y)
                  (set_start (PCell x y)
                     (set_hits [PCell x y] (current_ship_info p))))
               p).
Proof.
  destruct p as [w h t dc l [a s e d len hs sf ef]]; simpl.
  intros -> ->.
  unfold update_current_ship, extend_boundaries; simpl.
  destruct (x <? x); reflexivity.
Qed.

(** With the idle record in place and a cell in [last_hit], reporting a sink
    excludes the 3 x 3 block around the cell. *)
Lemma sink_when_idle is_ship_hit p x y :
  active (current_ship_info p) = false ->
  direction (current_ship_info p) = DNone ->
  hits (current_ship_info p) = [] ->
  last_hit p = PCell x y ->
  exists p',
    receive_result is_ship_hit true p = Returns p' /\
    (forall a b,
       (a, b) ∈ dont_choose p' ↔
       (a, b) ∈ dont_choose p \/ (x - 1 ≤ a ≤ x + 1 /\ y - 1 ≤ b ≤ y + 1)) /\
    current_ship_info p' = fresh_ship_info /\
    tracker p' = tracker p /\
    last_hit p' = last_hit p.
Proof.
  intros Ha Hd Hh Hl. unfold receive_result.
  rewrite Hl, (update_when_idle p x y Hd Hh). mstep.
  match goal with
  | |- context [dont_hit_nearby_cells ?q] =>
      destruct (dont_hit_nearby_cells_spec q x y x y eq_refl eq_refl)
        as (dc' & Hdc' & Hdc); rewrite Hdc'
  end.
  mstep. eexists. split; [reflexivity |].
  split; [exact Hdc |]. split; [reflexivity |]. split; [reflexivity |].
  simpl. exact Hl.
Qed.

(** In the idle state [select_target] samples at random. *)
Lemma idle_select draws p :
  active (current_ship_info p) = false ->
  select_target draws p =
    (c ← choose_randomly p draws;
     mret (PCell c.1 c.2,
           set_last_hit (PCell c.1 c.2)
             (set_tracker ({[ PCell c.1 c.2 ]} ∪ tracker p) p))).
Proof.
  intros Ha. unfold select_target. rewrite Ha. cbn [negb].
  destruct (choose_randomly p draws); reflexivity.
Qed.

(** The random branch returns a cell of the board as soon as one of the
    draws is not forbidden. *)
Lemma idle_select_in_bounds draws p :
  active (current_ship_info p) = false ->
  randint_ok p draws ->
  (exists c, c ∈ draws /\ forbidden p c = false) ->
  exists c p',
    select_target draws p = Returns (PCell c.1 c.2, p') /\
    legal p c = true.
Proof.
  intros Ha Hd Hex.
  destruct (choose_randomly_returns p draws Hex) as [c Hc].
  exists c. eexists. rewrite (idle_select draws p Ha), Hc.
  split; [reflexivity |].
  apply choose_randomly_cases in Hc as [Hin Hf].
  unfold legal. rewrite Hf.
  unfold randint_ok in Hd. rewrite Forall_forall in Hd.
  rewrite (Hd c Hin). reflexivity.
Qed.

(** C10: when [select_target] has returned with no pursuit active and the
    harness reports that the target sank a ship, [receive_result] does not
    raise: it adds exactly the 3 x 3 block of cells around [last_hit] to
    [dont_choose] and leaves the pursuit inactive with no hits, so the next
    [select_target] samples at random. *)
Theorem C10_sunk_by_first_hit w h p is_ship_hit :
  reachable w h Awaiting p ->
  active (current_ship_info p) = false ->
  exists x y p',
    last_hit p = PCell x y /\
    receive_result is_ship_hit true p = Returns p' /\
    (forall a b,
       (a, b) ∈ dont_choose p' ↔
       (a, b) ∈ dont_choose p \/ (x - 1 ≤ a ≤ x + 1 /\ y - 1 ≤ b ≤ y + 1)) /\
    active (current_ship_info p') = false /\
    hits (current_ship_info p') = [] /\
    (forall draws,
       select_target draws p' =
         (c ← choose_randomly p' draws;
          mret (PCell c.1 c.2,
                set_last_hit (PCell c.1 c.2)
                  (set_tracker ({[ PCell c.1 c.2 ]} ∪ tracker p') p')))).
Proof.
  intros Hr Ha.
  destruct (reachable_invariant w h Awaiting p Hr) as (_ & _ & Hi & Hl).
  destruct (Hi Ha) as [Hd Hh].
  specialize (Hl eq_refl). unfold probe_ok in Hl. rewrite Ha in Hl.
  destruct Hl as (x & y & Hl).
  destruct (sink_when_idle is_ship_hit p x y Ha Hd Hh Hl)
    as (p' & Hp' & Hdc & Hinfo & _).
  exists x, y, p'. split; [exact Hl |]. split; [exact Hp' |].
  split; [exact Hdc |]. rewrite Hinfo.
  split; [reflexivity |]. split; [reflexivity |].
  intros draws. apply idle_select. rewrite Hinfo. reflexivity.
Qed.

Lemma C10_witness :
  exists p',
    last_hit (awaiting_after [] [(5, 5)]) = PCell 5 5 /\
    receive_result true true (awaiting_after [] [(5, 5)]) = Returns p' /\
    (forall a b, (a, b) ∈ dont_choose p' ↔ 4 ≤ a ≤ 6 /\ 4 ≤ b ≤ 6) /\
    active (current_ship_info p') = false.
Proof.
  assert (Hr : reachable 10 10 Awaiting (awaiting_after [] [(5, 5)])).
  { apply awaiting_after_reachable; [draws_ok | draws_ok | |];
      eexists; vm_compute; reflexivity. }
  destruct (C10_sunk_by_first_hit 10 10 _ true Hr eq_refl)
    as (x & y & p' & Hl & Hp' & Hdc & Ha & _).
  vm_compute in Hl. injection Hl as <- <-.
  exists p'. split; [reflexivity |]. split; [exact Hp' |].
  split; [| exact Ha].
  intros a b. rewrite Hdc.
  replace (dont_choose (awaiting_after [] [(5, 5)])) with (∅ : gset (Z * Z))
    by (vm_compute; reflexivity).
  rewrite elem_of_empty. lia.
Defined.

(** ** Where the code departs from its documentation *)

(** C1: evaluation at the failing input.  The cell left of [start] is off
    the board, [select_target] goes on to the cell right of [end], and
    [start_found] is still [False] when it returns: the statement
    [self.current_ship_info['start_found'] == True] compares and assigns
    nothing. *)
Theorem C1_start_found_not_recorded :
  let p := after at_left_edge in
  reachable 10 10 Ready p /\
  active (current_ship_info p) = true /\
  direction (current_ship_info p) = DH /\
  start (current_ship_info p) = PCell 1 5 /\
  end_ (current_ship_info p) = PCell 2 5 /\
  start_found (current_ship_info p) = false /\
  in_bounds p (0, 5) = false /\
  exists p',
    select_target [] p = Returns (PCell 3 5, p') /\
    start_found (current_ship_info p') = false.
Proof.
  cbv zeta. split.
  { apply after_reachable; [draws_ok |]. eexists. vm_compute. reflexivity. }
  repeat (split; [vm_compute; reflexivity |]).
  eexists. split; vm_compute; reflexivity.
Qed.

(** C3: evaluation at the failing input.  With no neighbour left,
    [choose_around_cell] falls off its loop and [select_target] returns
    [None] and records it; after a miss is reported the next call returns
    [None] again, which by then is a member of [tracker]. *)
Theorem C3_none_returned_twice :
  let q := awaiting_after cornered [] in
  exists p p',
    reachable 10 10 Ready (after cornered) /\
    select_target [] (after cornered) = Returns (PNone, q) /\
    receive_result false false q = Returns p /\
    reachable 10 10 Ready p /\
    PNone ∈ tracker p /\
    select_target [] p = Returns (PNone, p').
Proof.
  cbv zeta.
  assert (Hr : reachable 10 10 Ready (after cornered)).
  { apply after_reachable; [draws_ok |]. eexists. vm_compute. reflexivity. }
  assert (Hs : select_target [] (after cornered)
               = Returns (PNone, awaiting_after cornered []))
    by (vm_compute; reflexivity).
  destruct (receive_result false false (awaiting_after cornered []))
    as [p| |] eqn:Hp; [| vm_compute in Hp; discriminate Hp ..].
  exists p. eexists.
  split; [exact Hr |]. split; [exact Hs |]. split; [reflexivity |].
  split.
  { eapply reach_receive; [| exact Hp].
    eapply reach_select; [exact Hr | constructor | exact Hs]. }
  vm_compute in Hp. injection Hp as <-.
  split.
  { apply (bool_decide_unpack _). vm_compute. exact I. }
  vm_compute. reflexivity.
Qed.

(** C4: evaluation at the failing inputs.  In both states a cell of the
    board is still neither attempted nor excluded, and [select_target]
    returns a value that is not a cell: [False] while extending, [None]
    while the direction is unknown. *)
Theorem C4_select_target_returns_non_cell :
  (reachable 10 10 Ready (after walled_in) /\
   direction (current_ship_info (after walled_in)) = DH /\
   legal (after walled_in) (1, 2) = true /\
   exists p',
     forall draws,
       select_target draws (after walled_in) = Returns (PFalse, p')) /\
  (reachable 10 10 Ready (after cornered) /\
   direction (current_ship_info (after cornered)) = DNone /\
   legal (after cornered) (5, 5) = true /\
   exists p',
     forall draws,
       select_target draws (after cornered) = Returns (PNone, p')).
Proof.
  split.
  - split.
    { apply after_reachable; [draws_ok |]. eexists. vm_compute. reflexivity. }
    repeat (split; [vm_compute; reflexivity |]).
    eexists. intros draws. vm_compute. reflexivity.
  - split.
    { apply after_reachable; [draws_ok |]. eexists. vm_compute. reflexivity. }
    repeat (split; [vm_compute; reflexivity |]).
    eexists. intros draws. vm_compute. reflexivity.
Qed.

(** * Further properties of [AutomaticPlayer] *)

(** ** What the two calls leave alone *)

Lemma update_current_ship_frame c p p' :
  update_current_ship c p = Returns p' ->
  p' = set_info (current_ship_info p') p.
Proof.
  unfold update_current_ship.
  match goal with |- context [mbind _ ?m] => destruct m as [[d i]| |] end;
    mstep; try discriminate.
  destruct (extend_boundaries d c i); mstep; try discriminate.
  intros [= <-]. reflexivity.
Qed.

Lemma found_end_frame c p p' :
  found_end c p = Returns p' ->
  p' = set_info (current_ship_info p') p.
Proof.
  unfold found_end.
  destruct p as [w h t dc l i]; cbn [current_ship_info].
  destruct (direction i), c, (start i), (end_ i);
    mstep; try discriminate;
    repeat match goal with
      | |- context [Z.ltb ?a ?b] => destruct (Z.ltb a b); mstep
      | |- context [Z.gtb ?a ?b] => destruct (Z.gtb a b); mstep
      end;
    try discriminate; intros [= <-]; reflexivity.
Qed.

Lemma dont_hit_nearby_cells_frame p p' :
  dont_hit_nearby_cells p = Returns p' ->
  exists dc, p' = set_dont_choose dc p /\ dont_choose p ⊆ dc.
Proof.
  unfold dont_hit_nearby_cells.
  destruct (start (current_ship_info p)), (end_ (current_ship_info p));
    mstep; try discriminate.
  intros [= <-]. eexists. split; [reflexivity |].
  intros c Hc. apply elem_of_add_block. left. exact Hc.
Qed.

(** What [receive_result] can change outside the pursuit record. *)
Lemma receive_result_frame is_ship_hit has_ship_sunk p p' :
  receive_result is_ship_hit has_ship_sunk p = Returns p' ->
  (tracker p' = tracker p \/ tracker p' = {[ last_hit p ]} ∪ tracker p) /\
  dont_choose p ⊆ dont_choose p' /\
  (has_ship_sunk = false -> dont_choose p' = dont_choose p) /\
  last_hit p' = last_hit p.
Proof.
  unfold receive_result. destruct has_ship_sunk.
  - destruct (update_current_ship (last_hit p) p) as [p1| |] eqn:E1; mstep;
      try discriminate.
    destruct (dont_hit_nearby_cells p1) as [p2| |] eqn:E2; mstep;
      try discriminate.
    intros [= <-]. apply update_current_ship_frame in E1.
    apply dont_hit_nearby_cells_frame in E2 as (dc & -> & Hdc).
    rewrite E1 in Hdc |- *. simpl in *.
    split; [left; reflexivity |]. split; [exact Hdc |].
    split; [discriminate | reflexivity].
  - destruct is_ship_hit.
    + destruct (active (current_ship_info p)); cbn [negb].
      * intros ->%update_current_ship_frame. simpl.
        split; [left; reflexivity |]. split; [reflexivity |].
        split; reflexivity.
      * intros [= <-]. simpl.
        split; [left; reflexivity |]. split; [reflexivity |].
        split; reflexivity.
    + destruct (active (current_ship_info p));
        [destruct (direction (current_ship_info p)) |];
        try (intros ->%found_end_frame; simpl;
             split; [left; reflexivity |]; split; [reflexivity |];
             split; reflexivity);
        intros [= <-]; simpl;
        (split; [right; reflexivity |]; split; [reflexivity |];
         split; reflexivity).
Qed.

Lemma receive_result_grows is_ship_hit has_ship_sunk p p' :
  receive_result is_ship_hit has_ship_sunk p = Returns p' ->
  tracker p ⊆ tracker p' /\ dont_choose p ⊆ dont_choose p'.
Proof.
  intros (Ht & Hd & _)%receive_result_frame. split; [| exact Hd].
  destruct Ht as [-> | ->]; [reflexivity |].
  intros c Hc. apply elem_of_union_r. exact Hc.
Qed.

(** X2: [tracker] and [dont_choose] are append-only.  [select_target] adds
    the value it returns to [tracker] and leaves [dont_choose] alone;
    [receive_result] leaves [last_hit] alone, adds at most [last_hit] to
    [tracker], never removes a cell from [dont_choose], and changes
    [dont_choose] only when a sink is reported. *)
Theorem X2_sets_only_grow p p' :
  (forall draws v,
     select_target draws p = Returns (v, p') ->
     tracker p' = {[ v ]} ∪ tracker p /\ dont_choose p' = dont_choose p) /\
  (forall is_ship_hit has_ship_sunk,
     receive_result is_ship_hit has_ship_sunk p = Returns p' ->
     (tracker p' = tracker p \/ tracker p' = {[ last_hit p ]} ∪ tracker p) /\
     dont_choose p ⊆ dont_choose p' /\
     (has_ship_sunk = false -> dont_choose p' = dont_choose p) /\
     last_hit p' = last_hit p).
Proof.
  split.
  - intros draws v ->%select_target_writes. split; reflexivity.
  - intros is_ship_hit has_ship_sunk. apply receive_result_frame.
Qed.

Lemma X2_witness :
  tracker (awaiting_after [] [(5, 5)]) = {[ PCell 5 5 ]} ∪ ∅ /\
  dont_choose (awaiting_after [] [(5, 5)]) = ∅.
Proof.
  apply (proj1 (X2_sets_only_grow (new_player 10 10)
                  (awaiting_after [] [(5, 5)])) [(5, 5)] (PCell 5 5)).
  vm_compute. reflexivity.
Defined.

(** ** The cells [select_target] returns *)

Lemma select_target_legal draws p x y p' :
  randint_ok p draws ->
  select_target draws p = Returns (PCell x y, p') ->
  legal p (x, y) = true.
Proof.
  intros Hd.
  assert (Hchk : forall c, check p c = PCell x y -> legal p (x, y) = true).
  { intros [cx cy] H. destruct (check_cases p (cx, cy)) as [E | [E Hl]];
      rewrite E in H; [discriminate |].
    simpl in H. injection H as -> ->. exact Hl. }
  unfold select_target.
  destruct (active (current_ship_info p)); mstep.
  - destruct (direction (current_ship_info p)).
    + unfold choose_around_cell.
      destruct (start (current_ship_info p)) as [| |sx sy]; mstep;
        try discriminate.
      destruct (first_legal_cases p sx sy offsets)
        as [E | (dx & dy & _ & Hl & E)]; rewrite E; mstep;
        intros [= ? ? ?]; subst. exact Hl.
    + unfold check_left, check_right.
      destruct (start (current_ship_info p)) as [| |sx sy],
               (end_ (current_ship_info p)) as [| |ex ey],
               (start_found (current_ship_info p)); mstep;
        try discriminate.
      all: cbn [Bool.eqb negb truthy].
      all: try (destruct (check p (sx - 1, sy)) eqn:E1; mstep;
             cbn [truthy negb]; try discriminate).
      all: intros [= H ?]; subst; eauto.
      all: try (rewrite <- H in *; eauto).
    + unfold check_above, check_below.
      destruct (start (current_ship_info p)) as [| |sx sy],
               (end_ (current_ship_info p)) as [| |ex ey],
               (start_found (current_ship_info p)); mstep;
        try discriminate.
      all: cbn [Bool.eqb negb truthy].
      all: try (destruct (check p (sx, sy - 1)) eqn:E1; mstep;
             cbn [truthy negb]; try discriminate).
      all: intros [= H ?]; subst; eauto.
      all: try (rewrite <- H in *; eauto).
  - cbn [negb]. destruct (choose_randomly p draws) as [c| |] eqn:E; mstep;
      try discriminate.
    apply choose_randomly_cases in E as [Hin Hf].
    unfold randint_ok in Hd. rewrite Forall_forall in Hd.
    specialize (Hd c Hin). destruct c as [cx cy]. cbn [fst snd].
    intros [= <- <- _]. unfold legal. rewrite Hf, Hd. reflexivity.
Qed.

(** X1: whenever [select_target] returns a pair, in whichever branch, the
    pair is a cell of the board that was neither in [tracker] nor in
    [dont_choose] when the call was made (the draws of [random.randint]
    being inside the board). *)
Theorem X1_returned_cell_is_legal draws p x y p' :
  randint_ok p draws ->
  select_target draws p = Returns (PCell x y, p') ->
  (1 ≤ x ≤ board_width p /\ 1 ≤ y ≤ board_height p) /\
  (PCell x y ∉ tracker p) /\ ((x, y) ∉ dont_choose p).
Proof.
  intros Hd H. apply legal_spec. exact (select_target_legal _ _ _ _ _ Hd H).
Qed.

Lemma X1_witness :
  (1 ≤ 3 ≤ 10 /\ 1 ≤ 1 ≤ 10) /\
  (PCell 3 1 ∉ tracker (after [([(1, 1)], hit); ([], hit)])) /\
  ((3, 1) ∉ dont_choose (after [([(1, 1)], hit); ([], hit)])).
Proof.
  apply (X1_returned_cell_is_legal [] (after [([(1, 1)], hit); ([], hit)])
           3 1 (awaiting_after [([(1, 1)], hit); ([], hit)] [])).
  - constructor.
  - vm_compute. reflexivity.
Defined.

Lemma play_log_fresh ts p vs p' :
  play_log ts p = Returns (vs, p') ->
  (tracker p ⊆ tracker p' /\ dont_choose p ⊆ dont_choose p') /\
  NoDup (cells_of vs) /\
  forall c, c ∈ cells_of vs ->
            (PCell c.1 c.2 ∉ tracker p) /\ (c ∉ dont_choose p) /\
            PCell c.1 c.2 ∈ tracker p'.
Proof.
  revert p vs. induction ts as [|[draws [is_hit has_sunk]] ts IH];
    intros p vs; simpl.
  - intros [= <- <-]. split; [split; reflexivity |].
    split; [constructor |]. intros c Hc. inversion Hc.
  - destruct (select_target draws p) as [[v p1]| |] eqn:E1; mstep;
      try discriminate.
    destruct (receive_result is_hit has_sunk p1) as [p2| |] eqn:E2; mstep;
      try discriminate.
    destruct (play_log ts p2) as [[vs' p3]| |] eqn:E3; mstep;
      try discriminate.
    intros [= <- <-].
    destruct (IH p2 vs' E3) as ([Ht3 Hd3] & Hnd & Hfresh). clear IH.
    destruct (receive_result_grows _ _ _ _ E2) as [Ht2 Hd2].
    pose proof (select_target_writes _ _ _ _ E1) as Hp1.
    assert (Hv : v ∈ tracker p2).
    { apply Ht2. rewrite Hp1. simpl. apply elem_of_union_l.
      apply elem_of_singleton. reflexivity. }
    assert (Ht : tracker p ⊆ tracker p2).
    { intros c Hc. apply Ht2. rewrite Hp1. simpl.
      apply elem_of_union_r. exact Hc. }
    assert (Hd : dont_choose p ⊆ dont_choose p2).
    { intros c Hc. apply Hd2. rewrite Hp1. exact Hc. }
    split.
    { split; intros c Hc; [apply Ht3, Ht, Hc | apply Hd3, Hd, Hc]. }
    assert (Hrest : forall c, c ∈ cells_of vs' ->
              (PCell c.1 c.2 ∉ tracker p) /\ (c ∉ dont_choose p) /\
              PCell c.1 c.2 ∈ tracker p3).
    { intros c Hc. destruct (Hfresh c Hc) as (H1 & H2 & H3).
      split; [intros H; apply H1, Ht, H |].
      split; [intros H; apply H2, Hd, H | exact H3]. }
    destruct v as [| |x y]; cbn [cells_of omap]; fold (cells_of vs');
      try (split; [exact Hnd | exact Hrest]).
    split.
    + apply NoDup_cons. split; [| exact Hnd].
      intros Hin. destruct (Hfresh _ Hin) as (H1 & _). exact (H1 Hv).
    + intros c [-> | Hc]%elem_of_cons; [| exact (Hrest c Hc)].
      cbn [fst snd].
      destruct (select_target_fresh_cell _ _ _ _ _ E1) as [H1 H2].
      split; [exact H1 |]. split; [exact H2 | apply Ht3, Hv].
Qed.

(** X3: along any run of turns, from any state, [select_target] never
    returns the same pair twice, never a pair that was in [tracker] or in
    [dont_choose] when the run began, and every pair it returned is in
    [tracker] when the run ends. *)
Theorem X3_no_cell_twice ts p vs p' :
  play_log ts p = Returns (vs, p') ->
  NoDup (cells_of vs) /\
  forall x y, (x, y) ∈ cells_of vs ->
              (PCell x y ∉ tracker p) /\ ((x, y) ∉ dont_choose p) /\
              PCell x y ∈ tracker p'.
Proof.
  intros (_ & Hnd & Hfresh)%play_log_fresh. split; [exact Hnd |].
  intros x y Hc. exact (Hfresh (x, y) Hc).
Qed.

Lemma X3_witness :
  NoDup (cells_of [PCell 4 4; PCell 3 4]) /\
  forall x y, (x, y) ∈ cells_of [PCell 4 4; PCell 3 4] ->
              (PCell x y ∉ tracker (new_player 10 10)) /\
              ((x, y) ∉ dont_choose (new_player 10 10)) /\
              PCell x y ∈ tracker (after two_hits).
Proof.
  apply (X3_no_cell_twice two_hits (new_player 10 10)).
  vm_compute. reflexivity.
Defined.

Lemma in_bounds_spec p c :
  in_bounds p c = true ↔
  1 ≤ c.1 ≤ board_width p /\ 1 ≤ c.2 ≤ board_height p.
Proof.
  unfold in_bounds. rewrite !andb_true_iff, !Z.leb_le. tauto.
Qed.

(** At most [w * h] distinct pairs lie on a [w] x [h] board. *)
Lemma bounded_cells_length (w h : Z) (l : list (Z * Z)) :
  NoDup l ->
  (forall c, c ∈ l -> 1 ≤ c.1 ≤ w /\ 1 ≤ c.2 ≤ h) ->
  (length l ≤ Z.to_nat w * Z.to_nat h)%nat.
Proof.
  intros Hnd Hin.
  rewrite <- (length_seqZ 1 w), <- (length_seqZ 1 h), <- length_prod.
  apply submseteq_length, NoDup_submseteq; [exact Hnd |].
  intros [x y] Hc. apply list_elem_of_In, in_prod_iff.
  destruct (Hin _ Hc) as [Hx Hy]. cbn [fst snd] in Hx, Hy.
  split; apply list_elem_of_In, elem_of_seqZ; lia.
Qed.

Lemma play_log_in_bounds ts p vs p' :
  Forall (fun t : turn => randint_ok p t.1) ts ->
  play_log ts p = Returns (vs, p') ->
  forall c, c ∈ cells_of vs -> in_bounds p c = true.
Proof.
  intros Hts. revert p vs Hts.
  induction ts as [|[draws [is_hit has_sunk]] ts IH]; intros p vs Hts; simpl.
  - intros [= <- <-] c Hc. inversion Hc.
  - destruct (select_target draws p) as [[v p1]| |] eqn:E1; mstep;
      try discriminate.
    destruct (receive_result is_hit has_sunk p1) as [p2| |] eqn:E2; mstep;
      try discriminate.
    destruct (play_log ts p2) as [[vs' p3]| |] eqn:E3; mstep;
      try discriminate.
    intros [= <- <-].
    apply Forall_cons in Hts as [Hd Hts]. cbn [fst] in Hd.
    destruct (receive_result_board _ _ _ _ E2) as [Hw2 Hh2].
    pose proof (select_target_writes _ _ _ _ E1) as Hp1.
    assert (Hw : board_width p2 = board_width p)
      by (rewrite Hw2, Hp1; reflexivity).
    assert (Hh : board_height p2 = board_height p)
      by (rewrite Hh2, Hp1; reflexivity).
    assert (Hrest : forall c, c ∈ cells_of vs' -> in_bounds p c = true).
    { intros c Hc. apply in_bounds_spec. rewrite <- Hw, <- Hh.
      apply in_bounds_spec. revert c Hc. apply (IH p2 vs'); [| exact E3].
      eapply Forall_impl; [exact Hts |].
      intros t Ht. cbv beta in Ht |- *.
      eapply randint_ok_board; [| | exact Ht]; congruence. }
    destruct v as [| |x y]; cbn [cells_of omap]; fold (cells_of vs');
      try exact Hrest.
    intros c [-> | Hc]%elem_of_cons; [| exact (Hrest c Hc)].
    pose proof (select_target_legal _ _ _ _ _ Hd E1) as Hl.
    unfold legal in Hl. apply andb_true_iff in Hl as [Hl _]. exact Hl.
Qed.

(** X4: a run of turns, from any state, makes [select_target] return at
    most [width * height] pairs, however long it is (the draws of
    [random.randint] being inside the board). *)
Theorem X4_at_most_one_target_per_cell ts p vs p' :
  Forall (fun t : turn => randint_ok p t.1) ts ->
  play_log ts p = Returns (vs, p') ->
  (length (cells_of vs) ≤
   Z.to_nat (board_width p) * Z.to_nat (board_height p))%nat.
Proof.
  intros Hts Hrun. apply bounded_cells_length.
  - apply (play_log_fresh ts p vs p' Hrun).
  - intros c Hc. apply in_bounds_spec.
    exact (play_log_in_bounds ts p vs p' Hts Hrun c Hc).
Qed.

Lemma X4_witness :
  (length (cells_of [PCell 4 4; PCell 3 4]) ≤
   Z.to_nat (board_width (new_player 10 10)) *
   Z.to_nat (board_height (new_player 10 10)))%nat.
Proof.
  apply (X4_at_most_one_target_per_cell two_hits (new_player 10 10)
           [PCell 4 4; PCell 3 4] (after two_hits)).
  - draws_ok.
  - vm_compute. reflexivity.
Defined.

(** ** The shape of the pursuit along a run *)

Ltac segment_goal :=
  do 4 eexists; split; [reflexivity |]; split; [reflexivity |]; simpl.

Lemma hit_extends_segment p p' :
  active (current_ship_info p) = true ->
  segment_ok (current_ship_info p) ->
  probe_ok p ->
  update_current_ship (last_hit p) p = Returns p' ->
  segment_ok (current_ship_info p').
Proof.
  destruct p as [w h t dc l [a s e d len hs sf ef]].
  unfold segment_ok, probe_ok; simpl. intros -> Hs Hl.
  destruct (Hs eq_refl) as (sx & sy & ex & ey & -> & -> & Hnd & Hin & Hd).
  clear Hs. unfold update_current_ship, extend_boundaries; simpl.
  rewrite length_snoc_test.
  assert (Hfresh : forall c, ~ on_segment d (sx, sy) (ex, ey) c ->
            NoDup (hs ++ [c])).
  { intros c Hc. apply NoDup_app. split; [exact Hnd |].
    split; [| apply NoDup_singleton].
    intros v Hv ->%list_elem_of_singleton. apply Hc, Hin, Hv. }
  destruct d.
  - injection Hd as -> ->.
    destruct Hl as [-> | (x & y & dx & dy & [= <- <-] & Hoff & ->)].
    + destruct hs; simpl; discriminate.
    + assert (Hhs : hs <> []).
      { intros ->. apply (elem_of_nil (PCell sx sy)), Hin. simpl.
        exists sx. split; [lia | reflexivity]. }
      assert (Htest : match hs with [] => true | _ :: _ => false end = false)
        by (destruct hs; [congruence | reflexivity]).
      rewrite Htest. clear Hhs Htest.
      apply elem_of_offsets in Hoff
        as [[-> ->] | [[-> ->] | [[-> ->] | [-> ->]]]];
        rewrite ?Z.add_0_r;
        simpl; split_tests; try lia; intros [= <-] _; segment_goal;
        (split; [apply Hfresh; simpl; intros (k & Hk & Heq); injection Heq; intros; lia |]);
        (split; [| split; lia]);
        intros v; rewrite elem_of_app, list_elem_of_singleton, Hin; simpl;
        (split;
         [ intros [(k & Hk & ->) | ->];
           [assert (k = sx) as -> by lia |];
           (eexists; split; [| reflexivity]; lia)
         | intros (k & Hk & ->);
           first
             [ destruct (Z.eq_dec k sx) as [-> | Hne];
               [ left; exists sx; split; [lia | reflexivity]
               | right; f_equal; lia ]
             | destruct (Z.eq_dec k sy) as [-> | Hne];
               [ left; exists sx; split; [lia | reflexivity]
               | right; f_equal; lia ] ] ]).
  - destruct Hd as [-> Hlt].
    destruct Hl as [-> | [(x & y & [= <- <-] & ->) | (x & y & [= <- <-] & ->)]];
      simpl; try discriminate; split_tests; try lia;
      intros [= <-] _; segment_goal;
      (split; [apply Hfresh; simpl; intros (k & Hk & Heq); injection Heq; intros; lia |]);
      (split; [| split; [reflexivity | lia]]);
      intros v; rewrite elem_of_app, list_elem_of_singleton, Hin; simpl;
      (split;
       [intros [(k & Hk & ->) | ->]; (eexists; split; [| reflexivity]; lia)
       | intros (k & Hk & ->)]).
    + destruct (Z.eq_dec k (sx - 1)) as [-> | Hne]; [right; reflexivity |].
      left. exists k. split; [lia | reflexivity].
    + destruct (Z.eq_dec k (ex + 1)) as [-> | Hne]; [right; reflexivity |].
      left. exists k. split; [lia | reflexivity].
  - destruct Hd as [-> Hlt].
    destruct Hl as [-> | [(x & y & [= <- <-] & ->) | (x & y & [= <- <-] & ->)]];
      simpl; try discriminate; split_tests; try lia;
      intros [= <-] _; segment_goal;
      (split; [apply Hfresh; simpl; intros (k & Hk & Heq); injection Heq; intros; lia |]);
      (split; [| split; [reflexivity | lia]]);
      intros v; rewrite elem_of_app, list_elem_of_singleton, Hin; simpl;
      (split;
       [intros [(k & Hk & ->) | ->]; (eexists; split; [| reflexivity]; lia)
       | intros (k & Hk & ->)]).
    + destruct (Z.eq_dec k (sy - 1)) as [-> | Hne]; [right; reflexivity |].
      left. exists k. split; [lia | reflexivity].
    + destruct (Z.eq_dec k (ey + 1)) as [-> | Hne]; [right; reflexivity |].
      left. exists k. split; [lia | reflexivity].
Qed.

Lemma reachable_segment w h ph p :
  reachable w h ph p -> segment_ok (current_ship_info p).
Proof.
  induction 1 as [| p draws v p' _ IH _ Hsel
                  | p is_hit has_sunk p' Hr IH Hrec].
  - intros [=].
  - apply select_target_writes in Hsel as ->. exact IH.
  - destruct (reachable_invariant w h Awaiting p Hr) as (_ & _ & Hi & Hl).
    specialize (Hl eq_refl).
    destruct has_sunk.
    { rewrite (sink_resets _ _ _ Hrec). intros [=]. }
    destruct is_hit.
    + unfold receive_result in Hrec.
      destruct (active (current_ship_info p)) eqn:Ha; cbn [negb] in Hrec.
      * exact (hit_extends_segment p p' Ha IH Hl Hrec).
      * injection Hrec as <-. destruct (Hi Ha) as [Hd Hh].
        unfold probe_ok in Hl. rewrite Ha in Hl. destruct Hl as (x & y & Hl).
        unfold segment_ok, initialise_ship; simpl. rewrite Hd, Hh, Hl.
        intros _. exists x, y, x, y.
        split; [reflexivity |]. split; [reflexivity |].
        split; [apply NoDup_singleton |]. split; [| reflexivity].
        intros v. simpl. rewrite list_elem_of_singleton. split.
        -- intros ->. exists x. split; [lia | reflexivity].
        -- intros (k & Hk & ->). f_equal. lia.
    + destruct (miss_keeps_extent p p' Hrec) as (Ea & Es & Ee & Ed & Eh).
      unfold segment_ok. rewrite Ea, Es, Ee, Ed, Eh. exact IH.
Qed.

(** X5: along every run from a new player, an active pursuit is a straight
    run of cells: [start] and [end] are cells, [hits] has no duplicates and
    holds exactly the cells from [start] to [end]; while the direction is
    unknown [end] is [start], once it is horizontal the two share their row
    and [start] is strictly left of [end], once it is vertical they share
    their column and [start] is strictly above [end]. *)
Theorem X5_pursuit_is_a_straight_run w h ph p :
  reachable w h ph p ->
  active (current_ship_info p) = true ->
  exists sx sy ex ey,
    start (current_ship_info p) = PCell sx sy /\
    end_ (current_ship_info p) = PCell ex ey /\
    NoDup (hits (current_ship_info p)) /\
    (forall v,
       v ∈ hits (current_ship_info p) ↔
       on_segment (direction (current_ship_info p)) (sx, sy) (ex, ey) v) /\
    match direction (current_ship_info p) with
    | DNone => (ex, ey) = (sx, sy)
    | DH => ey = sy /\ sx < ex
    | DV => ex = sx /\ sy < ey
    end.
Proof.
  intros Hr. exact (reachable_segment w h ph p Hr).
Qed.

Lemma X5_witness :
  exists sx sy ex ey,
    start (current_ship_info (after five_turns)) = PCell sx sy /\
    end_ (current_ship_info (after five_turns)) = PCell ex ey /\
    NoDup (hits (current_ship_info (after five_turns))) /\
    (forall v,
       v ∈ hits (current_ship_info (after five_turns)) ↔
       on_segment (direction (current_ship_info (after five_turns)))
         (sx, sy) (ex, ey) v) /\
    match direction (current_ship_info (after five_turns)) with
    | DNone => (ex, ey) = (sx, sy)
    | DH => ey = sy /\ sx < ex
    | DV => ex = sx /\ sy < ey
    end.
Proof.
  apply (X5_pursuit_is_a_straight_run 10 10 Ready (after five_turns)).
  - apply after_reachable; [draws_ok |]. eexists. vm_compute. reflexivity.
  - vm_compute. reflexivity.
Defined.

(** ** Results reported for a value that is not a cell *)

Lemma update_current_ship_non_cell c p :
  truthy c = false ->
  update_current_ship c p = Raises TypeError.
Proof.
  destruct p as [w h t dc l [a s e d len hs sf ef]].
  unfold update_current_ship, extend_boundaries; simpl.
  rewrite length_snoc_test.
  destruct c; [| | discriminate]; intros _;
    destruct d, hs; reflexivity.
Qed.

Lemma found_end_non_cell c p :
  truthy c = false ->
  direction (current_ship_info p) <> DNone ->
  found_end c p = Raises TypeError.
Proof.
  unfold found_end.
  destruct c; [| | discriminate]; intros _;
    destruct (direction (current_ship_info p)); intros Hd;
    first [congruence | reflexivity].
Qed.

(** The value returned tells the branch taken: [False] comes from the
    [check_*] methods, [None] from [choose_around_cell]. *)
Lemma select_target_sentinel draws p v p' :
  select_target draws p = Returns (v, p') ->
  truthy v = false ->
  active (current_ship_info p') = true /\
  (v = PNone ↔ direction (current_ship_info p') = DNone).
Proof.
  intros H Hv. pose proof (select_target_probe _ _ _ _ H) as Hpr.
  destruct (select_target_records _ _ _ _ H) as [_ Hl].
  unfold probe_ok in Hpr. rewrite Hl in Hpr.
  destruct (active (current_ship_info p')).
  - split; [reflexivity |].
    destruct (direction (current_ship_info p')).
    + destruct Hpr as [-> | (x & y & dx & dy & _ & _ & ->)];
        [tauto | discriminate].
    + destruct Hpr as [-> | [(x & y & _ & ->) | (x & y & _ & ->)]];
        try discriminate. split; discriminate.
    + destruct Hpr as [-> | [(x & y & _ & ->) | (x & y & _ & ->)]];
        try discriminate. split; discriminate.
  - destruct Hpr as (x & y & ->). discriminate.
Qed.

(** X6: once [select_target] has returned [False], every call of
    [receive_result] raises [TypeError]; once it has returned [None], the
    report of a hit or of a sink raises [TypeError]. *)
Theorem X6_report_after_non_cell_raises draws p p' :
  (select_target draws p = Returns (PFalse, p') ->
   forall is_ship_hit has_ship_sunk,
     receive_result is_ship_hit has_ship_sunk p' = Raises TypeError) /\
  (select_target draws p = Returns (PNone, p') ->
   forall is_ship_hit has_ship_sunk,
     is_ship_hit = true \/ has_ship_sunk = true ->
     receive_result is_ship_hit has_ship_sunk p' = Raises TypeError).
Proof.
  split; intros H is_ship_hit has_ship_sunk.
  - destruct (select_target_sentinel _ _ _ _ H eq_refl) as [Ha Hd].
    destruct (select_target_records _ _ _ _ H) as [_ Hl].
    unfold receive_result. rewrite Hl, Ha.
    rewrite (update_current_ship_non_cell PFalse p' eq_refl).
    assert (Hdir : direction (current_ship_info p') <> DNone).
    { intros E. apply Hd in E. discriminate. }
    rewrite (found_end_non_cell PFalse p' eq_refl Hdir).
    destruct has_ship_sunk, is_ship_hit; try reflexivity.
    destruct (direction (current_ship_info p')); [congruence | |];
      reflexivity.
  - destruct (select_target_sentinel _ _ _ _ H eq_refl) as [Ha _].
    destruct (select_target_records _ _ _ _ H) as [_ Hl].
    unfold receive_result. rewrite Hl, Ha.
    rewrite (update_current_ship_non_cell PNone p' eq_refl).
    intros [-> | ->]; [destruct has_ship_sunk |]; reflexivity.
Qed.

Lemma X6_witness :
  receive_result false false (awaiting_after walled_in []) = Raises TypeError /\
  receive_result true false (awaiting_after cornered []) = Raises TypeError.
Proof.
  split.
  - apply (proj1 (X6_report_after_non_cell_raises [] (after walled_in)
                    (awaiting_after walled_in []))).
    vm_compute. reflexivity.
  - apply (proj2 (X6_report_after_non_cell_raises [] (after cornered)
                    (awaiting_after cornered []))).
    + vm_compute. reflexivity.
    + left. reflexivity.
Defined.

(** ** Reports that change nothing *)

(** X7: when [select_target] has returned with no pursuit active, or with
    the direction of the pursuit unknown, the report of a miss leaves the
    player exactly as it is: the value [receive_result] adds to [tracker]
    is already there. *)
Theorem X7_miss_changes_nothing draws p v p' :
  select_target draws p = Returns (v, p') ->
  active (current_ship_info p) = false \/
  direction (current_ship_info p) = DNone ->
  receive_result false false p' = Returns p'.
Proof.
  intros ->%select_target_writes Hidle.
  unfold receive_result; simpl.
  assert (E : {[ v ]} ∪ ({[ v ]} ∪ tracker p) = {[ v ]} ∪ tracker p).
  { rewrite (assoc_L (∪)), (idemp_L (∪)). reflexivity. }
  rewrite E. unfold set_tracker, set_last_hit; simpl.
  destruct Hidle as [-> | ->]; [reflexivity |].
  destruct (active (current_ship_info p)); reflexivity.
Qed.

Lemma X7_witness :
  receive_result false false (awaiting_after [] [(5, 5)]) =
    Returns (awaiting_after [] [(5, 5)]).
Proof.
  apply (X7_miss_changes_nothing [(5, 5)] (new_player 10 10) (PCell 5 5)).
  - vm_compute. reflexivity.
  - left. reflexivity.
Defined.

(** ** After a sink *)

(** X8: whatever the pursuit was, a report of a sink that returns leaves
    the record built by [reset_current_ship], [tracker] and [last_hit] as
    they were and [dont_choose] no smaller; the next [select_target] samples
    at random. *)
Theorem X8_sink_returns_to_random_search is_ship_hit p p' :
  receive_result is_ship_hit true p = Returns p' ->
  current_ship_info p' = fresh_ship_info /\
  tracker p' = tracker p /\
  last_hit p' = last_hit p /\
  dont_choose p ⊆ dont_choose p' /\
  forall draws,
    select_target draws p' =
      (c ← choose_randomly p' draws;
       mret (PCell c.1 c.2,
             set_last_hit (PCell c.1 c.2)
               (set_tracker ({[ PCell c.1 c.2 ]} ∪ tracker p') p'))).
Proof.
  intros H. pose proof (sink_resets _ _ _ H) as Hi.
  split; [exact Hi |].
  assert (Ht : tracker p' = tracker p /\ last_hit p' = last_hit p /\
               dont_choose p ⊆ dont_choose p').
  { revert H. unfold receive_result.
    destruct (update_current_ship (last_hit p) p) as [p1| |] eqn:E1; mstep;
      try discriminate.
    destruct (dont_hit_nearby_cells p1) as [p2| |] eqn:E2; mstep;
      try discriminate.
    intros [= <-]. apply update_current_ship_frame in E1.
    apply dont_hit_nearby_cells_frame in E2 as (dc & -> & Hdc).
    rewrite E1 in Hdc |- *. simpl in *. auto. }
  destruct Ht as (Ht & Hl & Hd).
  split; [exact Ht |]. split; [exact Hl |]. split; [exact Hd |].
  intros draws. apply idle_select. rewrite Hi. reflexivity.
Qed.

Lemma X8_witness :
  exists p',
    receive_result true true sunk_example = Returns p' /\
    current_ship_info p' = fresh_ship_info /\
    tracker p' = tracker sunk_example.
Proof.
  eexists.
  assert (H : receive_result true true sunk_example = Returns ?[p'])
    by (vm_compute; reflexivity).
  split; [exact H |].
  destruct (X8_sink_returns_to_random_search true sunk_example _ H)
    as (Hi & Ht & _).
  split; [exact Hi | exact Ht].
Defined.

(** ** The sampling loop *)

Lemma choose_randomly_never_raises p draws e :
  choose_randomly p draws <> Raises e.
Proof.
  induction draws as [|c draws IH]; simpl; [discriminate |].
  destruct (forbidden p c); [exact IH | discriminate].
Qed.

Lemma choose_randomly_spins p draws :
  Forall (fun c => forbidden p c = true) draws ->
  choose_randomly p draws = Spins.
Proof.
  induction 1 as [|c draws Hc _ IH]; simpl; [reflexivity |].
  rewrite Hc. exact IH.
Qed.

(** X9: with no pursuit active [select_target] never raises, and it returns
    exactly when one of the draws is neither in [tracker] nor in
    [dont_choose].  When every cell of the board is in [tracker] or in
    [dont_choose], it returns for no sequence of draws, however long: the
    loop of [choose_randomly] does not end. *)
Theorem X9_random_search_ends_iff_a_draw_is_free draws p :
  active (current_ship_info p) = false ->
  (forall e, select_target draws p <> Raises e) /\
  ((exists r, select_target draws p = Returns r) ↔
   (exists c, c ∈ draws /\ forbidden p c = false)) /\
  (randint_ok p draws ->
   (forall x y,
      1 ≤ x ≤ board_width p -> 1 ≤ y ≤ board_height p ->
      PCell x y ∈ tracker p \/ (x, y) ∈ dont_choose p) ->
   select_target draws p = Spins).
Proof.
  intros Ha. rewrite (idle_select draws p Ha).
  split; [| split].
  - intros e.
    destruct (choose_randomly p draws) as [c|e0|] eqn:E; mstep;
      intros Heq; inversion Heq.
    exact (choose_randomly_never_raises p draws e0 E).
  - split.
    + intros [r Hr].
      destruct (choose_randomly p draws) as [c| |] eqn:E;
        cbn [mbind outcome_bind] in Hr; try discriminate.
      exists c. exact (choose_randomly_cases p draws c E).
    + intros Hex. destruct (choose_randomly_returns p draws Hex) as [c ->].
      eexists. reflexivity.
  - intros Hd Hfull. rewrite choose_randomly_spins; [reflexivity |].
    unfold randint_ok in Hd. eapply Forall_impl; [exact Hd |].
    intros [x y] Hb. apply in_bounds_spec in Hb as [Hx Hy].
    cbn [fst snd] in Hx, Hy. unfold forbidden. cbn [fst snd].
    destruct (Hfull x y Hx Hy) as [H | H].
    + rewrite (bool_decide_eq_true_2 _ H). reflexivity.
    + rewrite (bool_decide_eq_true_2 _ H). apply orb_true_r.
Qed.

Lemma X9_witness :
  select_target [(1, 1); (1, 1); (1, 1)] exhausted_example = Spins.
Proof.
  apply (X9_random_search_ends_iff_a_draw_is_free
           [(1, 1); (1, 1); (1, 1)] exhausted_example eq_refl).
  - draws_ok.
  - intros x y Hx Hy. left.
    assert (x = 1) as -> by (cbn in Hx; lia).
    assert (y = 1) as -> by (cbn in Hy; lia).
    apply (bool_decide_unpack _). vm_compute. exact I.
Defined.

(** * Properties of [RandomPlayer] *)

Lemma generate_random_target_cases p draws c :
  RandomPlayer.generate_random_target p draws = Returns c ->
  c ∈ draws /\ c ∉ RandomPlayer.tracker p.
Proof.
  induction draws as [|d draws IH]; simpl; [discriminate |].
  destruct (bool_decide (d ∈ RandomPlayer.tracker p)) eqn:E.
  - intros H. destruct (IH H) as [Hin Hf].
    split; [apply list_elem_of_further, Hin | exact Hf].
  - intros [= <-]. apply bool_decide_eq_false in E.
    split; [apply list_elem_of_here | exact E].
Qed.

Lemma generate_random_target_returns p draws :
  (exists c, c ∈ draws /\ c ∉ RandomPlayer.tracker p) ->
  exists c, RandomPlayer.generate_random_target p draws = Returns c.
Proof.
  induction draws as [|d draws IH]; intros (c & Hin & Hf).
  - inversion Hin.
  - simpl. destruct (bool_decide (d ∈ RandomPlayer.tracker p)) eqn:E;
      [| eauto].
    apply bool_decide_eq_true in E.
    apply IH. exists c. split; [| exact Hf].
    apply elem_of_cons in Hin as [-> | Hin]; [contradiction | exact Hin].
Qed.

Lemma generate_random_target_never_raises p draws e :
  RandomPlayer.generate_random_target p draws <> Raises e.
Proof.
  induction draws as [|c draws IH]; simpl; [discriminate |].
  destruct (bool_decide (c ∈ RandomPlayer.tracker p));
    [exact IH | discriminate].
Qed.

Lemma generate_random_target_spins p draws :
  Forall (fun c => c ∈ RandomPlayer.tracker p) draws ->
  RandomPlayer.generate_random_target p draws = Spins.
Proof.
  induction 1 as [|c draws Hc _ IH]; simpl; [reflexivity |].
  rewrite (bool_decide_eq_true_2 _ Hc). exact IH.
Qed.

Lemma random_select_target_writes draws p c p' :
  RandomPlayer.select_target draws p = Returns (c, p') ->
  RandomPlayer.generate_random_target p draws = Returns c /\
  p' = RandomPlayer.Make (RandomPlayer.board_width p)
         (RandomPlayer.board_height p) ({[ c ]} ∪ RandomPlayer.tracker p).
Proof.
  unfold RandomPlayer.select_target.
  destruct (RandomPlayer.generate_random_target p draws) as [c'| |]; mstep;
    try discriminate.
  intros [= <- <-]. split; reflexivity.
Qed.

(** X10: the cell [RandomPlayer.select_target] returns is one of the draws,
    was not in [tracker] before the call and is the one element the call
    adds to [tracker], which grows by exactly one. *)
Theorem X10_random_player_target_is_new draws p c p' :
  RandomPlayer.select_target draws p = Returns (c, p') ->
  c ∈ draws /\
  (c ∉ RandomPlayer.tracker p) /\
  RandomPlayer.tracker p' = {[ c ]} ∪ RandomPlayer.tracker p /\
  size (RandomPlayer.tracker p') = S (size (RandomPlayer.tracker p)).
Proof.
  intros [Hg ->]%random_select_target_writes.
  destruct (generate_random_target_cases p draws c Hg) as [Hin Hf].
  split; [exact Hin |]. split; [exact Hf |]. split; [reflexivity |].
  simpl. rewrite size_union by (apply disjoint_singleton_l, Hf).
  rewrite size_singleton. reflexivity.
Qed.

Lemma X10_witness :
  (2, 3) ∈ [(2, 3); (4, 4)] /\
  ((2, 3) ∉ RandomPlayer.tracker (RandomPlayer.new 10 10)) /\
  RandomPlayer.tracker
    (RandomPlayer.Make 10 10 ({[ (2, 3) ]} ∪ ∅)) =
    {[ (2, 3) ]} ∪ RandomPlayer.tracker (RandomPlayer.new 10 10) /\
  size (RandomPlayer.tracker (RandomPlayer.Make 10 10 ({[ (2, 3) ]} ∪ ∅))) =
    S (size (RandomPlayer.tracker (RandomPlayer.new 10 10))).
Proof.
  apply (X10_random_player_target_is_new [(2, 3); (4, 4)]
           (RandomPlayer.new 10 10)).
  reflexivity.
Defined.

Lemma random_targets_fresh dss p cs p' :
  RandomPlayer.targets dss p = Returns (cs, p') ->
  NoDup cs /\
  (forall c, c ∈ cs -> c ∉ RandomPlayer.tracker p) /\
  (forall c, c ∈ cs -> exists draws, draws ∈ dss /\ c ∈ draws) /\
  RandomPlayer.tracker p' = list_to_set cs ∪ RandomPlayer.tracker p /\
  RandomPlayer.board_width p' = RandomPlayer.board_width p /\
  RandomPlayer.board_height p' = RandomPlayer.board_height p.
Proof.
  revert p cs. induction dss as [|draws dss IH]; intros p cs; simpl.
  - intros [= <- <-]. split; [constructor |].
    split; [intros c Hc; inversion Hc |].
    split; [intros c Hc; inversion Hc |].
    split; [| split; reflexivity].
    simpl. rewrite (left_id_L ∅ (∪)). reflexivity.
  - destruct (RandomPlayer.select_target draws p) as [[c p1]| |] eqn:E1;
      mstep; try discriminate.
    destruct (RandomPlayer.targets dss p1) as [[cs' p2]| |] eqn:E2; mstep;
      try discriminate.
    intros [= <- <-].
    destruct (IH p1 cs' E2) as (Hnd & Hfresh & Hsrc & Ht & Hw & Hh).
    apply random_select_target_writes in E1 as [Hg Hp1].
    destruct (generate_random_target_cases p draws c Hg) as [Hin Hf].
    rewrite Hp1 in Hfresh, Ht, Hw, Hh. simpl in Hfresh, Ht, Hw, Hh.
    split.
    { apply NoDup_cons. split; [| exact Hnd].
      intros Hc. apply (Hfresh c Hc). apply elem_of_union_l.
      apply elem_of_singleton. reflexivity. }
    split.
    { intros c' [-> | Hc]%elem_of_cons; [exact Hf |].
      intros H. apply (Hfresh c' Hc). apply elem_of_union_r, H. }
    split.
    { intros c' [-> | Hc]%elem_of_cons.
      - exists draws. split; [apply list_elem_of_here | exact Hin].
      - destruct (Hsrc c' Hc) as (ds & Hds & Hc').
        exists ds. split; [apply list_elem_of_further, Hds | exact Hc']. }
    split; [| split; assumption].
    rewrite Ht. simpl. rewrite (comm_L (∪) {[ c ]} (list_to_set cs')).
    rewrite (assoc_L (∪)). reflexivity.
Qed.

(** X11: successive calls of [RandomPlayer.select_target] never return the
    same cell twice nor a cell that was in [tracker] before the first call;
    [tracker] ends as what it was plus the cells returned; with the draws
    inside the board, at most [width * height] calls can return. *)
Theorem X11_random_player_never_repeats dss p cs p' :
  RandomPlayer.targets dss p = Returns (cs, p') ->
  NoDup cs /\
  (forall c, c ∈ cs -> c ∉ RandomPlayer.tracker p) /\
  RandomPlayer.tracker p' = list_to_set cs ∪ RandomPlayer.tracker p /\
  (Forall (Forall (fun c => RandomPlayer.in_board p c = true)) dss ->
   length dss = length cs /\
   (length dss ≤
    Z.to_nat (RandomPlayer.board_width p) *
    Z.to_nat (RandomPlayer.board_height p))%nat).
Proof.
  intros H.
  destruct (random_targets_fresh dss p cs p' H)
    as (Hnd & Hfresh & Hsrc & Ht & _).
  split; [exact Hnd |]. split; [exact Hfresh |]. split; [exact Ht |].
  intros Hb.
  assert (Hlen : length dss = length cs).
  { clear -H. revert p cs H. induction dss as [|draws dss IH];
      intros p cs; simpl.
    - intros [= <- <-]. reflexivity.
    - destruct (RandomPlayer.select_target draws p) as [[c p1]| |]; mstep;
        try discriminate.
      destruct (RandomPlayer.targets dss p1) as [[cs' p2]| |] eqn:E2; mstep;
        try discriminate.
      intros [= <- <-]. simpl. f_equal. exact (IH p1 cs' E2). }
  split; [exact Hlen |]. rewrite Hlen.
  apply bounded_cells_length; [exact Hnd |].
  intros c Hc. destruct (Hsrc c Hc) as (draws & Hds & Hin).
  rewrite Forall_forall in Hb. specialize (Hb draws Hds).
  rewrite Forall_forall in Hb. specialize (Hb c Hin).
  unfold RandomPlayer.in_board in Hb.
  rewrite !andb_true_iff, !Z.leb_le in Hb. tauto.
Qed.

Lemma X11_witness :
  NoDup [(1, 1); (2, 2)] /\
  (forall c, c ∈ [(1, 1); (2, 2)] ->
             c ∉ RandomPlayer.tracker (RandomPlayer.new 3 3)) /\
  RandomPlayer.tracker
    (RandomPlayer.Make 3 3 ({[ (2, 2) ]} ∪ ({[ (1, 1) ]} ∪ ∅))) =
    list_to_set [(1, 1); (2, 2)] ∪
    RandomPlayer.tracker (RandomPlayer.new 3 3) /\
  (Forall (Forall (fun c =>
             RandomPlayer.in_board (RandomPlayer.new 3 3) c = true))
     [[(1, 1)]; [(1, 1); (2, 2)]] ->
   length [[(1, 1)]; [(1, 1); (2, 2)]] = length [(1, 1); (2, 2)] /\
   (length [[(1, 1)]; [(1, 1); (2, 2)]] ≤
    Z.to_nat (RandomPlayer.board_width (RandomPlayer.new 3 3)) *
    Z.to_nat (RandomPlayer.board_height (RandomPlayer.new 3 3)))%nat).
Proof.
  apply (X11_random_player_never_repeats [[(1, 1)]; [(1, 1); (2, 2)]]
           (RandomPlayer.new 3 3)).
  vm_compute. reflexivity.
Defined.

(** X12: [RandomPlayer.select_target] never raises, and it returns exactly
    when one of the draws is not in [tracker].  Once every cell of the
    board is in [tracker] it returns for no sequence of draws, however
    long: the loop of [generate_random_target] does not end. *)
Theorem X12_random_player_search_ends_iff_a_draw_is_new draws p :
  (forall e, RandomPlayer.select_target draws p <> Raises e) /\
  ((exists r, RandomPlayer.select_target draws p = Returns r) ↔
   (exists c, c ∈ draws /\ c ∉ RandomPlayer.tracker p)) /\
  (Forall (fun c => RandomPlayer.in_board p c = true) draws ->
   (forall x y,
      1 ≤ x ≤ RandomPlayer.board_width p ->
      1 ≤ y ≤ RandomPlayer.board_height p ->
      (x, y) ∈ RandomPlayer.tracker p) ->
   RandomPlayer.select_target draws p = Spins).
Proof.
  unfold RandomPlayer.select_target. split; [| split].
  - intros e.
    destruct (RandomPlayer.generate_random_target p draws) as [c|e0|] eqn:E;
      mstep; intros Heq; inversion Heq.
    exact (generate_random_target_never_raises p draws e0 E).
  - split.
    + intros [r Hr].
      destruct (RandomPlayer.generate_random_target p draws) as [c| |] eqn:E;
        cbn [mbind outcome_bind] in Hr; try discriminate.
      exists c. exact (generate_random_target_cases p draws c E).
    + intros Hex.
      destruct (generate_random_target_returns p draws Hex) as [c ->].
      eexists. reflexivity.
  - intros Hd Hfull. rewrite generate_random_target_spins; [reflexivity |].
    eapply Forall_impl; [exact Hd |].
    intros [x y] Hb. unfold RandomPlayer.in_board in Hb.
    rewrite !andb_true_iff, !Z.leb_le in Hb. cbn [fst snd] in Hb.
    apply Hfull; tauto.
Qed.

Lemma X12_witness :
  RandomPlayer.select_target [(1, 1); (1, 1)]
    (RandomPlayer.Make 1 1 {[ (1, 1) ]}) = Spins.
Proof.
  apply (X12_random_player_search_ends_iff_a_draw_is_new [(1, 1); (1, 1)]
           (RandomPlayer.Make 1 1 {[ (1, 1) ]})).
  - draws_ok.
  - intros x y Hx Hy.
    assert (x = 1) as -> by (cbn in Hx; lia).
    assert (y = 1) as -> by (cbn in Hy; lia).
    apply (bool_decide_unpack _). vm_compute. exact I.
Defined.

(** * The cells around a sunk ship *)

Lemma on_segment_box d sx sy ex ey a b :
  match d with
  | DNone => (ex, ey) = (sx, sy)
  | DH => ey = sy /\ sx < ex
  | DV => ex = sx /\ sy < ey
  end ->
  on_segment d (sx, sy) (ex, ey) (PCell a b) ->
  sx ≤ a ≤ ex /\ sy ≤ b ≤ ey.
Proof.
  destruct d; simpl.
  - intros [= -> ->] (k & Hk & [= -> ->]). lia.
  - intros [-> Hlt] (k & Hk & [= -> ->]). lia.
  - intros [-> Hlt] (k & Hk & [= -> ->]). lia.
Qed.

Lemma sink_excludes_surroundings w h p is_ship_hit p' :
  reachable w h Awaiting p ->
  receive_result is_ship_hit true p = Returns p' ->
  forall a b x y,
    PCell a b ∈ hits (current_ship_info p) \/ last_hit p = PCell a b ->
    a - 1 ≤ x ≤ a + 1 -> b - 1 ≤ y ≤ b + 1 ->
    (x, y) ∈ dont_choose p'.
Proof.
  intros Hr Hrec a b x y Hab Hx Hy.
  destruct (reachable_invariant w h Awaiting p Hr) as (_ & Hp & Hi & Hl).
  specialize (Hl eq_refl).
  pose proof (reachable_segment w h Awaiting p Hr) as Hs.
  destruct (active (current_ship_info p)) eqn:Ha.
  - revert Hrec. unfold receive_result.
    destruct (update_current_ship (last_hit p) p) as [q| |] eqn:E1; mstep;
      try discriminate.
    pose proof (hit_extends_segment p q Ha Hs Hl E1) as Hq.
    destruct (hit_extends_pursuit p q Ha Hp Hl E1) as [_ Haq].
    destruct (Hq Haq) as (sx & sy & ex & ey & Hst & Hen & _ & Hin & Hd).
    destruct (dont_hit_nearby_cells_spec q sx sy ex ey Hst Hen)
      as (dc & -> & Hdc).
    mstep. intros [= <-]. simpl. apply Hdc. right.
    assert (Hmem : PCell a b ∈ hits (current_ship_info q)).
    { rewrite (update_current_ship_hits _ _ _ E1). apply elem_of_app.
      destruct Hab as [H | ->]; [left; exact H |].
      right. apply list_elem_of_singleton. reflexivity. }
    apply Hin in Hmem.
    destruct (on_segment_box _ _ _ _ _ _ _ Hd Hmem) as [Ha' Hb'].
    lia.
  - destruct (Hi Ha) as [Hd Hh].
    unfold probe_ok in Hl. rewrite Ha in Hl. destruct Hl as (x0 & y0 & Hl).
    destruct (sink_when_idle is_ship_hit p x0 y0 Ha Hd Hh Hl)
      as (p0 & Hp0 & Hdc & _).
    rewrite Hp0 in Hrec. injection Hrec as <-.
    apply Hdc. right.
    destruct Hab as [H | H].
    + rewrite Hh in H. inversion H.
    + rewrite Hl in H. injection H as -> ->. lia.
Qed.

(** X13: when a sink is reported during a run from a new player, every
    cell that touches, by a side or by a corner, a hit of the pursuit or
    the cell that sank the ship is in [dont_choose] afterwards, and
    [select_target] never returns such a cell for the rest of the run,
    whether or not a ship lies on it. *)
Theorem X13_cells_around_a_sunk_ship_are_never_targeted
    w h p is_ship_hit p' :
  reachable w h Awaiting p ->
  receive_result is_ship_hit true p = Returns p' ->
  forall a b x y,
    PCell a b ∈ hits (current_ship_info p) \/ last_hit p = PCell a b ->
    a - 1 ≤ x ≤ a + 1 -> b - 1 ≤ y ≤ b + 1 ->
    (x, y) ∈ dont_choose p' /\
    forall ts vs p'',
      play_log ts p' = Returns (vs, p'') -> (x, y) ∉ cells_of vs.
Proof.
  intros Hr Hrec a b x y Hab Hx Hy.
  pose proof (sink_excludes_surroundings w h p is_ship_hit p' Hr Hrec
                a b x y Hab Hx Hy) as Hdc.
  split; [exact Hdc |].
  intros ts vs p'' Hrun Hc.
  destruct (play_log_fresh ts p' vs p'' Hrun) as (_ & _ & Hfresh).
  destruct (Hfresh (x, y) Hc) as (_ & Hn & _). exact (Hn Hdc).
Qed.

Lemma X13_witness :
  exists p',
    receive_result true true (awaiting_after five_turns []) = Returns p' /\
    (1, 3) ∈ dont_choose p' /\
    forall ts vs p'',
      play_log ts p' = Returns (vs, p'') -> (1, 3) ∉ cells_of vs.
Proof.
  eexists.
  assert (H : receive_result true true (awaiting_after five_turns [])
              = Returns ?[p'])
    by (vm_compute; reflexivity).
  split; [exact H |].
  apply (X13_cells_around_a_sunk_ship_are_never_targeted 10 10
           (awaiting_after five_turns []) true _) with (a := 2) (b := 4).
  - apply awaiting_after_reachable; [draws_ok | constructor | |];
      eexists; vm_compute; reflexivity.
  - exact H.
  - left. apply (bool_decide_unpack _). vm_compute. exact I.
  - lia.
  - lia.
Defined.

(** * Properties of [Player] *)

Lemma create_count (Board : Type) args count :
  (PlayerBase.create Board count args).1 = count + Z.of_nat (length args).
Proof.
  revert count. induction args as [|[[nb b] nm] args IH]; intros count.
  - simpl. lia.
  - cbn [PlayerBase.create PlayerBase.init].
    specialize (IH (count + 1)).
    destruct (PlayerBase.create Board (count + 1) args) as [c ps].
    cbn [fst length] in IH |- *. lia.
Qed.

Lemma create_lookup (Board : Type) args count i nb b nm :
  args !! i = Some (nb, b, nm) ->
  (PlayerBase.create Board count args).2 !! i =
    Some (PlayerBase.Make Board
            (match b with None => nb | Some b => b end)
            (match nm with
             | None => "Player " +:+ pretty (count + Z.of_nat i + 1)
             | Some n => n
             end)).
Proof.
  revert count i. induction args as [|[[nb' b'] nm'] args IH];
    intros count i; [intros [=] |].
  cbn [PlayerBase.create PlayerBase.init].
  specialize (IH (count + 1)).
  destruct (PlayerBase.create Board (count + 1) args) as [c ps].
  cbn [snd] in IH |- *.
  destruct i as [|i]; simpl.
  - intros [= -> -> ->]. rewrite Z.add_0_r. reflexivity.
  - intros H. rewrite (IH i H).
    replace (count + 1 + Z.of_nat i + 1) with (count + Z.pos (Pos.of_succ_nat i) + 1)
      by lia.
    reflexivity.
Qed.

(** X14: when players are built one after the other, [Player.count] grows
    by one for each, named or not; the k-th player built without a name is
    called "Player " followed by the decimal value of the counter at that
    point, a player built with a name keeps it, and two players built
    without a name never share their name. *)
Theorem X14_default_names_are_distinct (Board : Type) count args :
  (PlayerBase.create Board count args).1 = count + Z.of_nat (length args) /\
  (forall i nb b nm,
     args !! i = Some (nb, b, nm) ->
     PlayerBase.str Board <$> (PlayerBase.create Board count args).2 !! i =
       Some (match nm with
             | None => "Player " +:+ pretty (count + Z.of_nat i + 1)
             | Some n => n
             end)) /\
  (forall i j nbi bi nbj bj p q,
     i <> j ->
     args !! i = Some (nbi, bi, None) ->
     args !! j = Some (nbj, bj, None) ->
     (PlayerBase.create Board count args).2 !! i = Some p ->
     (PlayerBase.create Board count args).2 !! j = Some q ->
     PlayerBase.str Board p <> PlayerBase.str Board q).
Proof.
  split; [apply create_count |]. split.
  - intros i nb b nm H. rewrite (create_lookup Board args count i nb b nm H).
    reflexivity.
  - intros i j nbi bi nbj bj p q Hij Hi Hj Hp Hq.
    rewrite (create_lookup Board args count i nbi bi None Hi) in Hp.
    rewrite (create_lookup Board args count j nbj bj None Hj) in Hq.
    injection Hp as <-. injection Hq as <-.
    unfold PlayerBase.str. cbn [PlayerBase.name].
    intros Heq. apply (inj (String.app "Player ")) in Heq.
    apply (inj pretty) in Heq. lia.
Qed.

Lemma X14_witness :
  PlayerBase.str unit (PlayerBase.Make unit tt "Player 1") <>
  PlayerBase.str unit (PlayerBase.Make unit tt "Player 3").
Proof.
  apply (proj2 (proj2 (X14_default_names_are_distinct unit 0
                         [(tt, None, None); (tt, None, Some "Ann");
                          (tt, Some tt, None)]))
           0%nat 2%nat tt None tt (Some tt)).
  - discriminate.
  - reflexivity.
  - reflexivity.
  - vm_compute. reflexivity.
  - vm_compute. reflexivity.
Defined.

(** * Further properties of [AutomaticPlayer]: reports out of turn, flags *)

(** X15: reports made when [last_hit] is still [None] (no target was
    selected yet) or is [False].  A sink raises [TypeError] in any state.
    With no pursuit active, a miss is accepted and only adds the value to
    [tracker]; a hit is accepted too and starts a pursuit whose [start] is
    that value, after which every [select_target] raises [TypeError]. *)
Theorem X15_reports_before_any_target p :
  truthy (last_hit p) = false ->
  (forall is_ship_hit,
     receive_result is_ship_hit true p = Raises TypeError) /\
  (active (current_ship_info p) = false ->
   direction (current_ship_info p) = DNone ->
   receive_result false false p =
     Returns (set_tracker ({[ last_hit p ]} ∪ tracker p) p) /\
   exists p1,
     receive_result true false p = Returns p1 /\
     active (current_ship_info p1) = true /\
     start (current_ship_info p1) = last_hit p /\
     forall draws, select_target draws p1 = Raises TypeError).
Proof.
  intros Hl. split.
  - intros is_ship_hit. unfold receive_result.
    rewrite (update_current_ship_non_cell _ p Hl). reflexivity.
  - intros Ha Hd. unfold receive_result. rewrite Ha. cbn [negb].
    split; [reflexivity |].
    eexists. split; [reflexivity |].
    split; [reflexivity |]. split; [reflexivity |].
    intros draws. unfold select_target, choose_around_cell, initialise_ship.
    simpl. rewrite Hd. destruct (last_hit p); [| | discriminate]; reflexivity.
Qed.

Lemma X15_witness :
  receive_result true true (new_player 10 10) = Raises TypeError.
Proof.
  apply (X15_reports_before_any_target (new_player 10 10)). reflexivity.
Defined.

Lemma update_current_ship_flags c p p' :
  update_current_ship c p = Returns p' ->
  start_found (current_ship_info p') = start_found (current_ship_info p) /\
  end_found (current_ship_info p') = end_found (current_ship_info p) /\
  active (current_ship_info p') = active (current_ship_info p).
Proof.
  destruct p as [w h t dc l [a s e d len hs sf ef]].
  unfold update_current_ship, extend_boundaries; simpl.
  destruct d; [rewrite length_snoc_test; destruct hs | |];
    destruct c as [| |cx cy], s as [| |sx sy]; simpl; try discriminate;
    repeat match goal with
      | |- context [Z.eqb ?a ?b] => destruct (Z.eqb a b); simpl
      | |- context [Z.ltb ?a ?b] => destruct (Z.ltb a b); simpl
      end;
    try discriminate; intros [= <-]; repeat split.
Qed.

Lemma found_end_flags c p p' :
  found_end c p = Returns p' ->
  (start_found (current_ship_info p) = true ->
   start_found (current_ship_info p') = true) /\
  (end_found (current_ship_info p) = true ->
   end_found (current_ship_info p') = true).
Proof.
  destruct p as [w h t dc l [a s e d len hs sf ef]].
  unfold found_end; simpl.
  destruct d, c as [| |cx cy], s as [| |sx sy], e as [| |ex ey]; simpl;
    try discriminate;
    repeat match goal with
      | |- context [Z.ltb ?a ?b] => destruct (Z.ltb a b); simpl
      | |- context [Z.gtb ?a ?b] => destruct (Z.gtb a b); simpl
      end;
    try discriminate; intros [= <-]; simpl; auto.
Qed.

Lemma idle_record w h ph p :
  reachable w h ph p ->
  active (current_ship_info p) = false ->
  current_ship_info p = initial_ship_info \/
  current_ship_info p = fresh_ship_info.
Proof.
  induction 1 as [| p draws v p' _ IH _ Hsel
                  | p is_hit has_sunk p' Hr IH Hrec].
  - left. reflexivity.
  - apply select_target_writes in Hsel as ->. exact IH.
  - destruct has_sunk.
    { intros _. right. exact (sink_resets _ _ _ Hrec). }
    destruct is_hit.
    + unfold receive_result in Hrec.
      destruct (active (current_ship_info p)) eqn:Ha; cbn [negb] in Hrec.
      * destruct (update_current_ship_flags _ _ _ Hrec) as (_ & _ & Ha').
        congruence.
      * injection Hrec as <-. discriminate.
    + destruct (miss_keeps_extent p p' Hrec) as (Ea & _).
      rewrite Ea. intros Ha. specialize (IH Ha).
      unfold receive_result in Hrec. rewrite Ha in Hrec.
      injection Hrec as <-. exact IH.
Qed.

(** X16: the flags [start_found] and [end_found].  Along a run from a new
    player the record of an idle player is exactly the one [__init__] or
    [reset_current_ship] built, so every pursuit begins with both flags
    [False]; and in any state a report that is not a sink never sets a flag
    back to [False]. *)
Theorem X16_flags_are_cleared_only_by_a_sink p :
  (forall w h ph,
     reachable w h ph p ->
     active (current_ship_info p) = false ->
     (current_ship_info p = initial_ship_info \/
      current_ship_info p = fresh_ship_info) /\
     start_found (current_ship_info p) = false /\
     end_found (current_ship_info p) = false) /\
  (forall is_ship_hit p',
     receive_result is_ship_hit false p = Returns p' ->
     (start_found (current_ship_info p) = true ->
      start_found (current_ship_info p') = true) /\
     (end_found (current_ship_info p) = true ->
      end_found (current_ship_info p') = true)).
Proof.
  split.
  - intros w h ph Hr Ha.
    pose proof (idle_record w h ph p Hr Ha) as Hi.
    split; [exact Hi |]. destruct Hi as [-> | ->]; split; reflexivity.
  - intros is_ship_hit p'. unfold receive_result. destruct is_ship_hit.
    + destruct (active (current_ship_info p)); cbn [negb].
      * intros (-> & -> & _)%update_current_ship_flags. auto.
      * intros [= <-]. simpl. auto.
    + destruct (active (current_ship_info p));
        [destruct (direction (current_ship_info p)) |];
        try apply found_end_flags; intros [= <-]; simpl; auto.
Qed.

Lemma X16_witness :
  start_found (current_ship_info (after five_turns)) = true.
Proof.
  apply (proj2 (X16_flags_are_cleared_only_by_a_sink
                  (awaiting_after [([(4, 4)], hit); ([], hit); ([], hit);
                                   ([], miss)] []))
           true (after five_turns)).
  - vm_compute. reflexivity.
  - vm_compute. reflexivity.
Defined.
